(** * rb: a fixed-size ring buffer and a keyed set of ring buffers

    Shallow embedding of the Go package [rb] (ring_buffer.go and
    ring_buffers.go) and the properties its specification states.

    Conventions of the embedding.
    - Go's [int] is modelled by [Z].  Every integer the package computes is an
      index into, or a length of, an allocated slice shifted by at most one
      slice length, so no operation of the package can wrap around.
    - A slice [[]T] is a [list T]; [len(s)] is [slen s].  A nil slice and an
      empty slice are both the empty list: the package only ever produces a nil
      slice where it appended nothing.
    - Run-time panics (index out of range, [make] with a negative length) are
      explicit: every operation returns a [result].  Allocation of a slice of
      non-negative length is taken to succeed.
    - The mutexes are not modelled: every method holds its own lock from entry
      to exit, so the sequential behaviour below is the behaviour of each call.
    - Pointers [*RingBuffer[T]] are addresses into a store of buffers, so that
      two handles to one buffer alias.
    - ring_buffers.go comes in two revisions that differ in [NewRingBuffers]
      only: one clamps the default size to at least 1, the other stores its
      argument as it is.  Both constructors are embedded; the states of a
      program start from the clamping one. *)

From stdpp Require Import base numbers option list strings gmap.

Local Open Scope Z_scope.

(** ** Results and panics *)

Inductive panic : Type :=
  | index_out_of_range
  | slice_bounds_out_of_range
  | makeslice_len_out_of_range
  | invalid_memory_address.

Inductive result (A : Type) : Type :=
  | Ok (a : A)
  | Panic (p : panic).

Arguments Ok {A} a.
Arguments Panic {A} p.

#[global] Instance result_ret : MRet result := @Ok.
#[global] Instance result_bind : MBind result :=
  λ A B f m, match m with Ok a => f a | Panic p => Panic p end.

(** Go's [error] values, as far as the package and its tests use them;
    [nil] is [None]. *)
Inductive error : Type :=
  | io_EOF
  | errors_New (msg : string).

(** [len(s)] as a Go [int]. *)
Definition slen {A : Type} (s : list A) : Z := Z.of_nat (length s).

(** A [*RingBuffer[T]]: the address of a buffer in the store. *)
Abbreviation ptr := nat (only parsing).

Section RingBuffer.

(** The element type and its zero value ([var zero T]). *)
Context {T : Type} (zero : T).

(** ** Slices *)

(** [make([]T, n)] *)
Definition make (n : Z) : result (list T) :=
  if decide (n < 0) then Panic makeslice_len_out_of_range
  else Ok (replicate (Z.to_nat n) zero).

(** [s[i]] as an expression *)
Definition index (s : list T) (i : Z) : result T :=
  if decide (0 ≤ i) then
    match s !! Z.to_nat i with
    | Some v => Ok v
    | None => Panic index_out_of_range
    end
  else Panic index_out_of_range.

(** [s[i] = v] *)
Definition store (s : list T) (i : Z) (v : T) : result (list T) :=
  if decide (0 ≤ i < slen s) then Ok (<[Z.to_nat i := v]> s)
  else Panic index_out_of_range.

(** [s[:n]] *)
Definition slice_to (s : list T) (n : Z) : result (list T) :=
  if decide (0 ≤ n ≤ slen s) then Ok (take (Z.to_nat n) s)
  else Panic slice_bounds_out_of_range.

(** ** ring_buffer.go *)

Record RingBuffer : Type := mkRingBuffer {
  buf : list T;   (* fully allocated at construction *)
  cur : Z;        (* index for next write, walk backwards to read *)
  len : Z;        (* count of actual values *)
}.

Definition NewRingBuffer (sz : Z) : result RingBuffer :=
  b ← make sz;
  mret {| buf := b; cur := 0; len := 0 |}.

(** The first loop of [Resize]: [for wrcur >= 0 { ... wrcur -= 1 }].  The
    counter [n] is [wrcur + 1], so the body runs at [wrcur = n - 1] and the
    loop is left at [wrcur = -1]. *)
Fixpoint Resize_fill (old : list T) (n : nat) (new : list T) (rdcur : Z)
    : result (list T * Z) :=
  match n with
  | O => mret (new, rdcur)
  | S n' =>
      v ← index old rdcur;
      new ← store new (Z.of_nat n') v;
      let rdcur := rdcur - 1 in
      let rdcur := if decide (rdcur < 0) then rdcur + slen old else rdcur in
      Resize_fill old n' new rdcur
  end.

(** The second loop of [Resize]: [for i := sz; i < rb.len; i++ { ... }];
    [n] is the number of values of [i] left to visit. *)
Fixpoint Resize_drop (old : list T) (n : nat) (dropped : list T) (rdcur : Z)
    : result (list T * Z) :=
  match n with
  | O => mret (dropped, rdcur)
  | S n' =>
      v ← index old rdcur;
      let dropped := dropped ++ [v] in
      let rdcur := rdcur - 1 in
      let rdcur := if decide (rdcur < 0) then rdcur + slen old else rdcur in
      Resize_drop old n' dropped rdcur
  end.

(** "Calculate the read cursor for the old buffer": the wrap adds [rb.len],
    not [len(rb.buf)]. *)
Definition Resize_rdcur (rb : RingBuffer) : Z :=
  let rdcur := cur rb - 1 in
  if decide (rdcur < 0) then rdcur + len rb else rdcur.

Definition Resize (sz : Z) (rb : RingBuffer) : result (RingBuffer * list T) :=
  if decide (sz ≤ 0) then mret (rb, [])
  else
    let fill := len rb in
    let fill := if decide (fill > sz) then sz else fill in
    let rdcur := Resize_rdcur rb in
    new ← make sz;
    let wrcur := fill - 1 in
    '(new, rdcur) ← Resize_fill (buf rb) (Z.to_nat (wrcur + 1)) new rdcur;
    '(dropped, rdcur) ← Resize_drop (buf rb) (Z.to_nat (len rb - sz)) [] rdcur;
    let cur' := fill in
    let cur' := if decide (cur' >= sz) then cur' - sz else cur' in
    mret ({| buf := new; cur := cur'; len := fill |}, dropped).

Definition Add (val : T) (rb : RingBuffer) : result (RingBuffer * (T * bool)) :=
  if decide (slen (buf rb) ≤ 0) then mret (rb, (zero, false))
  else
    '(dropped, ok) ←
      (if decide (len rb >= slen (buf rb))
       then v ← index (buf rb) (cur rb); mret (v, true)
       else mret (zero, false));
    b ← store (buf rb) (cur rb) val;
    let len' := if decide (len rb < slen b) then len rb + 1 else len rb in
    let cur' := cur rb + 1 in
    let cur' := if decide (cur' >= slen b) then cur' - slen b else cur' in
    mret ({| buf := b; cur := cur'; len := len' |}, (dropped, ok)).

(** A visitor [fn func(T) error] is a closure: it reads and writes captured
    variables of some type [S], and may itself panic. *)
Definition visitor (S : Type) : Type := T → S → result (S * option error).

Fixpoint Walk_loop {S : Type} (fn : visitor S) (rb : RingBuffer)
    (ixs : list nat) (s : S) : result (S * option error) :=
  match ixs with
  | [] => mret (s, None)
  | i :: ixs' =>
      let c := cur rb - 1 - Z.of_nat i in
      let c := if decide (c < 0) then c + slen (buf rb) else c in
      v ← index (buf rb) c;
      '(s, err) ← fn v s;
      match err with
      | Some e => mret (s, Some e)
      | None => Walk_loop fn rb ixs' s
      end
  end.

(** [for i := range rb.len] visits [0, 1, ..., rb.len - 1]. *)
Definition Walk {S : Type} (fn : visitor S) (rb : RingBuffer) (s : S)
    : result (S * option error) :=
  Walk_loop fn rb (seq 0 (Z.to_nat (len rb))) s.

Definition Overview (rb : RingBuffer) : result (T * T * Z) :=
  if decide (len rb = 0) then mret (zero, zero, 0)
  else
    let headidx := cur rb - 1 in
    let headidx := if decide (headidx < 0) then headidx + slen (buf rb) else headidx in
    let tailidx := headidx - (len rb - 1) in
    let tailidx := if decide (tailidx < 0) then tailidx + slen (buf rb) else tailidx in
    newest ← index (buf rb) headidx;
    oldest ← index (buf rb) tailidx;
    mret (newest, oldest, len rb).

(** The closure of [Copy]; it captures [dst] and [index]. *)
Definition Copy_fn : visitor (list T * Z) :=
  λ val '(dst, index),
    if decide (index >= slen dst) then mret ((dst, index), Some io_EOF)
    else
      dst ← store dst index val;
      mret ((dst, index + 1), None).

(** [Copy] returns [(index, nil)]; the first component here is [dst] after
    the call. *)
Definition Copy (dst : list T) (rb : RingBuffer) : result (list T * (Z * option error)) :=
  '((dst, index), _) ← Walk Copy_fn rb (dst, 0);
  mret (dst, (index, None)).

Definition Take (n : Z) (rb : RingBuffer) : result (list T * option error) :=
  dst ← make n;
  '(dst, (n, err)) ← Copy dst rb;
  match err with
  | Some e => mret ([], Some e)
  | None => s ← slice_to dst n; mret (s, None)
  end.

(** The visitor the tests use to read a buffer:
    [func(i T) error { have = append(have, i); return nil }]. *)
Definition collect : visitor (list T) := λ v have, mret (have ++ [v], None).

(** The values a full [Walk] yields, in the order it yields them. *)
Definition walked (rb : RingBuffer) : result (list T) :=
  '(have, _) ← Walk collect rb [];
  mret have.

(** A sequence of [Add] calls, discarding what each returns. *)
Fixpoint Add_all (vals : list T) (rb : RingBuffer) : result RingBuffer :=
  match vals with
  | [] => mret rb
  | v :: vals' => '(rb, _) ← Add v rb; Add_all vals' rb
  end.

(** ** Specification vocabulary for one buffer *)

(** The representation invariant of a buffer.  The last conjunct says that a
    buffer that is not full has been written from slot 0 upwards without
    wrapping. *)
Definition wf (rb : RingBuffer) : Prop :=
  0 ≤ len rb ≤ slen (buf rb) ∧
  0 ≤ cur rb ∧ (cur rb = 0 ∨ cur rb < slen (buf rb)) ∧
  (len rb < slen (buf rb) → cur rb = len rb).

#[global] Instance wf_dec (rb : RingBuffer) : Decision (wf rb) :=
  ltac:(unfold wf; exact _).

(** The storage index of the [i]-th newest value: [i] steps back from the
    slot before the write cursor, wrapping by the capacity. *)
Definition slot (rb : RingBuffer) (i : nat) : Z :=
  let c := cur rb - 1 - Z.of_nat i in
  if decide (c < 0) then c + slen (buf rb) else c.

(** The logical contents, newest first. *)
Definition view (rb : RingBuffer) : list T :=
  (λ i, default zero (buf rb !! Z.to_nat (slot rb i))) <$> seq 0 (Z.to_nat (len rb)).

(** What [Add] returns: the oldest value and [true] when the buffer is full,
    the zero value and [false] otherwise. *)
Definition Add_returns (rb : RingBuffer) : T * bool :=
  if decide (len rb = slen (buf rb))
  then (default zero (last (view rb)), true)
  else (zero, false).

(** Calling a visitor on each value of a list in turn, until it returns an
    error. *)
Fixpoint visit {S : Type} (fn : visitor S) (vals : list T) (s : S)
    : result (S * option error) :=
  match vals with
  | [] => mret (s, None)
  | v :: vals' =>
      '(s, err) ← fn v s;
      match err with
      | Some e => mret (s, Some e)
      | None => visit fn vals' s
      end
  end.

(** Histories of one buffer: any sequence of [Add] and [Resize] calls. *)
Inductive call : Type :=
  | CallAdd (val : T)
  | CallResize (sz : Z).

Definition do_call (c : call) (rb : RingBuffer) : result RingBuffer :=
  match c with
  | CallAdd val => '(rb, _) ← Add val rb; mret rb
  | CallResize sz => '(rb, _) ← Resize sz rb; mret rb
  end.

Fixpoint do_calls (cs : list call) (rb : RingBuffer) : result RingBuffer :=
  match cs with
  | [] => mret rb
  | c :: cs' => rb ← do_call c rb; do_calls cs' rb
  end.

(** ** ring_buffers.go *)

Record RingBuffers : Type := mkRingBuffers {
  sz : Z;                   (* named [cap] in the older revision *)
  bufs : gmap string ptr;
}.

(** [NewRingBuffers] as it clamps its argument ([sz: max(1, sz)]). *)
Definition NewRingBuffers (sz : Z) : RingBuffers :=
  {| sz := Z.max 1 sz; bufs := ∅ |}.

(** [NewRingBuffers] of the revision of ring_buffers.go that stores its
    argument as it is ([cap: cap]). *)
Definition NewRingBuffers_cap (cap : Z) : RingBuffers :=
  {| sz := cap; bufs := ∅ |}.

(** The program state: the buffers allocated so far, by address, and the
    set of ring buffers. *)
Record world : Type := mkWorld {
  mem : list RingBuffer;
  rbs : RingBuffers;
}.

(** [*rb] *)
Definition deref (w : world) (rb : ptr) : result RingBuffer :=
  match mem w !! rb with
  | Some b => Ok b
  | None => Panic invalid_memory_address
  end.

(** [&RingBuffer[T]{...}]: a fresh address. *)
Definition alloc (b : RingBuffer) (w : world) : ptr * world :=
  (length (mem w), {| mem := mem w ++ [b]; rbs := rbs w |}).

Definition GetOrCreate (category : string) (w : world) : result (ptr * world) :=
  match bufs (rbs w) !! category with
  | Some rb => mret (rb, w)
  | None =>
      b ← NewRingBuffer (sz (rbs w));
      let '(rb, w) := alloc b w in
      mret (rb, {| mem := mem w;
                   rbs := {| sz := sz (rbs w);
                             bufs := <[category := rb]> (bufs (rbs w)) |} |})
  end.

Definition GetAll (w : world) : gmap string ptr :=
  map_fold (λ name rb all, <[name := rb]> all) ∅ (bufs (rbs w)).

(** The loop of [RingBuffers.Resize] over the entries of [rbs.bufs]. *)
Fixpoint Resize_each (sz : Z) (entries : list (string * ptr))
    (m : list RingBuffer) (dropped : gmap string (list T))
    : result (list RingBuffer * gmap string (list T)) :=
  match entries with
  | [] => mret (m, dropped)
  | (name, rb) :: entries' =>
      b ← (match m !! rb with
           | Some b => Ok b
           | None => Panic invalid_memory_address
           end);
      '(b, d) ← Resize sz b;
      let m := <[rb := b]> m in
      let dropped := <[name := default [] (dropped !! name) ++ d]> dropped in
      Resize_each sz entries' m dropped
  end.

(** [RingBuffers.Resize].  The result map is [None] where Go returns a nil
    map.  Go ranges over a map in an unspecified order; here it is the order
    of [map_to_list]. *)
Definition RingBuffers_Resize (sz' : Z) (w : world)
    : result (world * option (gmap string (list T))) :=
  if decide (sz' ≤ 0) then mret (w, None)
  else
    '(m, dropped) ← Resize_each sz' (map_to_list (bufs (rbs w))) (mem w) ∅;
    mret ({| mem := m; rbs := {| sz := sz'; bufs := bufs (rbs w) |} |},
          Some dropped).

(** Methods of a buffer called through a handle. *)
Definition Add_at (rb : ptr) (val : T) (w : world) : result (world * (T * bool)) :=
  b ← deref w rb;
  '(b, r) ← Add val b;
  mret ({| mem := <[rb := b]> (mem w); rbs := rbs w |}, r).

Definition Resize_at (rb : ptr) (sz : Z) (w : world) : result (world * list T) :=
  b ← deref w rb;
  '(b, dropped) ← Resize sz b;
  mret ({| mem := <[rb := b]> (mem w); rbs := rbs w |}, dropped).

Definition walked_at (rb : ptr) (w : world) : result (list T) :=
  b ← deref w rb; walked b.

Definition Overview_at (rb : ptr) (w : world) : result (T * T * Z) :=
  b ← deref w rb; Overview b.

Definition Take_at (rb : ptr) (n : Z) (w : world) : result (list T * option error) :=
  b ← deref w rb; Take n b.

(** Histories of a program using one set of ring buffers: the calls that
    can change the state, and the reads, on any handle.  [Walk] stands here
    with the tests' collecting visitor; [Walk] with another visitor and
    [Copy] leave the state as it is and are treated buffer by buffer. *)
Inductive op : Type :=
  | OpNewRingBuffer (sz : Z)
  | OpGetOrCreate (category : string)
  | OpGetAll
  | OpResizeAll (sz : Z)
  | OpAdd (rb : ptr) (val : T)
  | OpResize (rb : ptr) (sz : Z)
  | OpWalk (rb : ptr)
  | OpOverview (rb : ptr)
  | OpTake (rb : ptr) (n : Z).

Definition step (o : op) (w : world) : result world :=
  match o with
  | OpNewRingBuffer sz => b ← NewRingBuffer sz; mret (alloc b w).2
  | OpGetOrCreate category => '(_, w) ← GetOrCreate category w; mret w
  | OpGetAll => mret w
  | OpResizeAll sz => '(w, _) ← RingBuffers_Resize sz w; mret w
  | OpAdd rb val => '(w, _) ← Add_at rb val w; mret w
  | OpResize rb sz => '(w, _) ← Resize_at rb sz w; mret w
  | OpWalk rb => _ ← walked_at rb w; mret w
  | OpOverview rb => _ ← Overview_at rb w; mret w
  | OpTake rb n => _ ← Take_at rb n w; mret w
  end.

Fixpoint steps (os : list op) (w : world) : result world :=
  match os with
  | [] => mret w
  | o :: os' => w ← step o w; steps os' w
  end.

(** The state after [rbs := NewRingBuffers[T](sz)]. *)
Definition NewWorld (sz : Z) : world :=
  {| mem := []; rbs := NewRingBuffers sz |}.

(** The invariant of the program state: the default size is at least 1,
    every allocated buffer is well formed, and every handle the set holds
    points to an allocated buffer with capacity > 0. *)
Definition winv (w : world) : Prop :=
  1 ≤ sz (rbs w) ∧
  Forall wf (mem w) ∧
  ∀ category rb, bufs (rbs w) !! category = Some rb →
    ∃ b, mem w !! rb = Some b ∧ 0 < slen (buf b).

(** Different categories hold different buffers. *)
Definition handles_distinct (w : world) : Prop :=
  ∀ c1 c2 rb, bufs (rbs w) !! c1 = Some rb → bufs (rbs w) !! c2 = Some rb →
    c1 = c2.

(** Buffers stay allocated, and a buffer with storage keeps having storage. *)
Definition mem_le (m m' : list RingBuffer) : Prop :=
  ∀ rb b, m !! rb = Some b →
    ∃ b', m' !! rb = Some b' ∧ (0 < slen (buf b) → 0 < slen (buf b')).

(** The calls Go lets a program make without panicking: a handle is the
    address of an allocated buffer, and a length to allocate is not
    negative. *)
Definition op_safe (w : world) (o : op) : Prop :=
  match o with
  | OpNewRingBuffer sz => 0 ≤ sz
  | OpGetOrCreate _ | OpGetAll | OpResizeAll _ => True
  | OpAdd rb _ | OpResize rb _ | OpWalk rb | OpOverview rb =>
      (rb < length (mem w))%nat
  | OpTake rb n => (rb < length (mem w))%nat ∧ 0 ≤ n
  end.

(** A history that leaves the default size alone. *)
Definition keeps_default (o : op) : bool :=
  match o with
  | OpResizeAll sz => bool_decide (sz ≤ 0)
  | _ => true
  end.

End RingBuffer.

Arguments RingBuffer T : clear implicits.
Arguments RingBuffers : clear implicits.
Arguments world T : clear implicits.
Arguments call T : clear implicits.
Arguments op T : clear implicits.

(** ** A list model of one buffer *)

Section Model.

Context {T : Type}.

(** The state of the model: the capacity, and the values held, newest
    first.  Adding puts the value in front and cuts the list at the capacity;
    resizing to a positive size sets the capacity and cuts the list at it. *)
Definition model_call (c : call T) (st : Z * list T) : Z * list T :=
  match c with
  | CallAdd val => (st.1, take (Z.to_nat st.1) (val :: st.2))
  | CallResize sz =>
      if decide (sz ≤ 0) then st else (sz, take (Z.to_nat sz) st.2)
  end.

Definition model_calls (cs : list (call T)) (st : Z * list T) : Z * list T :=
  foldl (λ st c, model_call c st) st cs.

End Model.

(** A sequence of [Add] calls, keeping the values they return with [true],
    in the order of the calls. *)
Fixpoint Add_evicting {T : Type} (zero : T) (vals : list T) (rb : RingBuffer T)
    : result (RingBuffer T * list T) :=
  match vals with
  | [] => mret (rb, [])
  | v :: vals' =>
      r ← Add zero v rb;
      let '(rb, (dropped, ok)) := r in
      r' ← Add_evicting zero vals' rb;
      let '(rb, evicted) := r' in
      mret (rb, if ok : bool then dropped :: evicted else evicted)
  end.

(** ** Fixtures: the states the test suite and the examples below use *)

(** [rb := NewRingBuffer[int](sz)] followed by [rb.Add(v)] for each [v]. *)
Definition filled (sz : Z) (vals : list Z) : result (RingBuffer Z) :=
  rb ← NewRingBuffer 0 sz; Add_all 0 vals rb.

(** The scenario of TestRingBuffersBasics. *)
Definition basics : result (list Z * list Z * option (nat * option (list Z) * option (list Z))) :=
  let w : world Z := NewWorld 100 in
  '(foo1, w) ← GetOrCreate 0 "foo" w;
  '(w, _) ← Add_at 0 foo1 123 w;
  '(w, _) ← Add_at 0 foo1 456 w;
  '(foo2, w) ← GetOrCreate 0 "foo" w;
  '(w, _) ← Add_at 0 foo2 789 w;
  have1 ← walked_at foo1 w;
  have2 ← walked_at foo2 w;
  '(bar, w) ← GetOrCreate 0 "bar" w;
  w ← steps 0 (OpAdd bar <$> [1; 2; 3; 4; 5; 6]) w;
  '(w, dropped) ← RingBuffers_Resize 0 2 w;
  mret (have1, have2,
        match dropped with
        | Some d => Some (size d, d !! "foo", d !! "bar")
        | None => None
        end).

(** The buffer after [NewRingBuffer(3)] and [Add] of 1, 2, 3, 4. *)
Definition rb_4321 : RingBuffer Z := {| buf := [4; 2; 3]; cur := 1; len := 3 |}.

(** The buffer after [NewRingBuffer(3)] and [Add] of 1, 2. *)
Definition rb_21 : RingBuffer Z := {| buf := [1; 2; 0]; cur := 2; len := 2 |}.

(** A set of ring buffers made by [NewRingBuffers(0)], after
    [GetOrCreate("foo")] and an [Add] of 123 through the handle. *)
Definition world_foo : world Z :=
  {| mem := [ {| buf := [123]; cur := 0; len := 1 |} ];
     rbs := {| sz := 1; bufs := {[ "foo" := 0%nat ]} |} |}.

(** The visitor of the tests' [top(k)]: it collects values and stops with an
    error once it has [k] of them. *)
Definition top_fn (k : Z) : @visitor Z (list Z) :=
  λ i res,
    if decide (k >= 0 ∧ slen res >= k)
    then mret (res, Some (errors_New "done"))
    else mret (res ++ [i], None).

(** A set of ring buffers made by [NewRingBuffers(3)], with category "foo"
    holding 123 and category "bar" holding 1, 2, 3, 4 (1 overwritten). *)
Definition world_foo_bar : world Z :=
  {| mem := [ {| buf := [123; 0; 0]; cur := 1; len := 1 |};
              {| buf := [4; 2; 3]; cur := 1; len := 3 |} ];
     rbs := {| sz := 3;
               bufs := <[ "bar" := 1%nat ]> {[ "foo" := 0%nat ]} |} |}.

(** The history that leads to it. *)
Definition history_foo_bar : list (op Z) :=
  [OpGetOrCreate "foo"; OpAdd 0%nat 123; OpGetOrCreate "bar";
   OpAdd 1%nat 1; OpAdd 1%nat 2; OpAdd 1%nat 3; OpAdd 1%nat 4].

(** ** The test suite's scenarios, evaluated on the embedding *)

Example world_foo_bar_reached :
  steps 0 history_foo_bar (NewWorld 3) = Ok world_foo_bar.
Proof. vm_compute. reflexivity. Qed.

Example TestRingBuffer_walk :
  (rb ← filled 3 [1; 2; 3; 4; 5; 6]; walked rb) = Ok [6; 5; 4].
Proof. vm_compute. reflexivity. Qed.

Example TestRingBuffer_removed :
  (rb ← filled 3 [1; 2; 3]; r ← Add 0 4 rb; mret (r.2)) = Ok (1, true).
Proof. vm_compute. reflexivity. Qed.

Example TestRingBufferResize_shrink :
  (rb ← filled 3 [1; 2; 3];
   r ← Resize 0 2 rb;
   have ← walked (r.1);
   mret (r.2, have)) = Ok ([1], [3; 2]).
Proof. vm_compute. reflexivity. Qed.

Example TestRingBufferResize_grow :
  (rb ← filled 3 [1; 2; 3];
   r ← Resize 0 2 rb;
   r' ← Resize 0 4 (r.1);
   rb' ← Add_all 0 [4; 5; 6; 7] (r'.1);
   have ← walked rb';
   mret (r'.2, have)) = Ok ([], [7; 6; 5; 4]).
Proof. vm_compute. reflexivity. Qed.

Example TestRingBufferCopyTake_take :
  (rb ← filled 32 [1; 2; 3; 4; 5]; Take 0 6 rb) = Ok ([5; 4; 3; 2; 1], None).
Proof. vm_compute. reflexivity. Qed.

Example TestRingBufferCopyTake_copy :
  (rb ← filled 32 [1; 2; 3; 4; 5]; Copy (replicate 10 0) rb)
  = Ok ([5; 4; 3; 2; 1; 0; 0; 0; 0; 0], (5, None)).
Proof. vm_compute. reflexivity. Qed.

Example TestRingBufferOverview_10 :
  (rb ← filled 10 [1; 2; 3]; Overview 0 rb) = Ok (3, 1, 3).
Proof. vm_compute. reflexivity. Qed.

Example TestRingBufferOverview_0 :
  (rb ← filled 0 [1; 2]; Overview 0 rb) = Ok (0, 0, 0).
Proof. vm_compute. reflexivity. Qed.

Example TestRingBuffersBasics :
  basics = Ok ([789; 456; 123], [789; 456; 123],
               Some (2%nat, Some [123], Some [4; 3; 2; 1])).
Proof. vm_compute. reflexivity. Qed.


Example rb_4321_reached :
  (NewRingBuffer 0 3 ≫= Add_all 0 [1; 2; 3; 4]) = Ok rb_4321.
Proof. vm_compute. reflexivity. Qed.

Example rb_21_reached : (NewRingBuffer 0 3 ≫= Add_all 0 [1; 2]) = Ok rb_21.
Proof. vm_compute. reflexivity. Qed.

Example world_foo_reached :
  steps 0 [OpGetOrCreate "foo"; OpAdd 0%nat 123] (NewWorld 0) = Ok world_foo.
Proof. vm_compute. reflexivity. Qed.

(** The revision of [NewRingBuffers] that stores its argument unclamped
    gives a set whose buffers have no storage when the argument is 0, and
    whose [GetOrCreate] panics when it is negative. *)
Example NewRingBuffers_cap_not_clamped :
  sz (NewRingBuffers_cap 0) = 0 ∧
  GetOrCreate 0 "foo" {| mem := []; rbs := NewRingBuffers_cap 0 |}
  = Ok (0%nat, {| mem := [ {| buf := []; cur := 0; len := 0 |} ];
                  rbs := {| sz := 0; bufs := {[ "foo" := 0%nat ]} |} |}) ∧
  GetOrCreate 0 "foo" {| mem := []; rbs := NewRingBuffers_cap (-1) |}
  = Panic makeslice_len_out_of_range.
Proof. vm_compute. done. Qed.

(** ** Slices and the result monad *)

Section SliceFacts.

Context {T : Type} (zero : T).
Implicit Types (s : list T) (v : T) (i n : Z).

Lemma bind_Ok {A B : Type} (a : A) (f : A → result B) : (Ok a ≫= f) = f a.
Proof. reflexivity. Qed.

Lemma bind_Ok_inv {A B : Type} (m : result A) (f : A → result B) (b : B) :
  m ≫= f = Ok b → ∃ a, m = Ok a ∧ f a = Ok b.
Proof. destruct m as [a|p]; [by exists a | discriminate]. Qed.

Lemma make_Ok n : 0 ≤ n → make zero n = Ok (replicate (Z.to_nat n) zero).
Proof. intros Hn. unfold make. case_decide; [lia | done]. Qed.

Lemma make_negative n : n < 0 → make zero n = Panic makeslice_len_out_of_range.
Proof. intros Hn. unfold make. case_decide; [done | lia]. Qed.

Lemma index_Ok s i v : 0 ≤ i → s !! Z.to_nat i = Some v → index s i = Ok v.
Proof. intros Hi Hv. unfold index. case_decide; [by rewrite Hv | lia]. Qed.

Lemma store_Ok s i v : 0 ≤ i < slen s → store s i v = Ok (<[Z.to_nat i := v]> s).
Proof. intros Hi. unfold store. case_decide; [done | lia]. Qed.

Lemma slice_to_Ok s n : 0 ≤ n ≤ slen s → slice_to s n = Ok (take (Z.to_nat n) s).
Proof. intros Hn. unfold slice_to. case_decide; [done | lia]. Qed.

Lemma slen_insert s (k : nat) v : slen (<[k := v]> s) = slen s.
Proof. unfold slen. by rewrite length_insert. Qed.

Lemma slen_replicate (k : nat) v : slen (replicate k v) = Z.of_nat k.
Proof. unfold slen. by rewrite length_replicate. Qed.

End SliceFacts.

(** ** One buffer: the values a walk yields *)

Section BufferFacts.

Context {T : Type} (zero : T).
Implicit Types (rb : RingBuffer T) (v : T) (vals : list T).

Local Abbreviation view := (view zero).
Local Abbreviation stored rb := (λ i : nat, default zero (buf rb !! Z.to_nat (slot rb i))).

Lemma length_view rb : length (view rb) = Z.to_nat (len rb).
Proof. unfold view. by rewrite length_fmap, length_seq. Qed.

Lemma slot_range rb (i : nat) :
  wf rb → Z.of_nat i < len rb → 0 ≤ slot rb i < slen (buf rb).
Proof.
  intros (Hlen & Hcur0 & Hcur & Hpart) Hi. unfold slot.
  case_decide; lia.
Qed.

Lemma view_lookup rb (i : nat) :
  wf rb → Z.of_nat i < len rb → view rb !! i = buf rb !! Z.to_nat (slot rb i).
Proof.
  intros Hwf Hi. unfold view.
  rewrite list_lookup_fmap, lookup_seq_lt by lia. simpl.
  destruct (slot_range rb i Hwf Hi) as [Hlo Hhi].
  destruct (lookup_lt_is_Some_2 (buf rb) (Z.to_nat (slot rb i))) as [v Hv].
  { unfold slen in Hhi. lia. }
  by rewrite Hv.
Qed.

Lemma view_lookup_lt rb (i : nat) v :
  view rb !! i = Some v → Z.of_nat i < len rb.
Proof.
  intros Hv. apply lookup_lt_Some in Hv. rewrite length_view in Hv. lia.
Qed.

Lemma index_slot rb (i : nat) v :
  wf rb → view rb !! i = Some v → index (buf rb) (slot rb i) = Ok v.
Proof.
  intros Hwf Hv. pose proof (view_lookup_lt _ _ _ Hv) as Hi.
  apply index_Ok; [by apply slot_range | by rewrite <- view_lookup].
Qed.

Lemma Walk_loop_visit {S : Type} (fn : visitor S) rb (ixs : list nat) (s : S) :
  wf rb → Forall (λ i : nat, Z.of_nat i < len rb) ixs →
  Walk_loop fn rb ixs s = visit fn (stored rb <$> ixs) s.
Proof.
  intros Hwf Hixs. revert s.
  induction Hixs as [|i ixs Hi _ IH]; intros s; [done|].
  cbn [Walk_loop fmap list_fmap visit].
  fold (slot rb i).
  assert (index (buf rb) (slot rb i) = Ok (stored rb i)) as ->.
  { apply index_slot; [done|].
    unfold view. rewrite list_lookup_fmap, lookup_seq_lt by lia. done. }
  rewrite bind_Ok.
  destruct (fn _ s) as [[s' [e|]]|p]; simpl; [done | apply IH | done].
Qed.

(** [Walk] calls the visitor on the logical contents, newest first, and
    stops at the first error. *)
Lemma Walk_view {S : Type} (fn : visitor S) rb (s : S) :
  wf rb → Walk fn rb s = visit fn (view rb) s.
Proof.
  intros Hwf. unfold Walk, view. apply Walk_loop_visit; [done|].
  apply Forall_forall. intros i Hi.
  apply elem_of_seq in Hi. lia.
Qed.

Lemma visit_collect vals (have : list T) :
  visit collect vals have = Ok (have ++ vals, None).
Proof.
  revert have. induction vals as [|v vals IH]; intros have; simpl.
  - by rewrite app_nil_r.
  - rewrite IH. by rewrite <- app_assoc.
Qed.

Lemma walked_view rb : wf rb → walked rb = Ok (view rb).
Proof.
  intros Hwf. unfold walked. rewrite Walk_view by done.
  by rewrite visit_collect.
Qed.

(** *** Add *)

Lemma Add_spec v rb :
  wf rb → 0 < slen (buf rb) →
  ∃ rb', Add zero v rb = Ok (rb', Add_returns zero rb) ∧
    wf rb' ∧ slen (buf rb') = slen (buf rb) ∧
    view rb' = take (Z.to_nat (slen (buf rb))) (v :: view rb).
Proof.
  intros Hwf Hcap.
  pose proof Hwf as (Hlen & Hcur0 & Hcur & Hpart).
  unfold Add, Add_returns. case_decide; [lia|].
  (* the captured value *)
  assert ((if decide (len rb >= slen (buf rb))
           then index (buf rb) (cur rb) ≫= λ d, mret (d, true)
           else mret (zero, false))
          = Ok (if decide (len rb = slen (buf rb))
                then (default zero (last (view rb)), true) else (zero, false)))
    as ->.
  { destruct (decide (len rb = slen (buf rb))) as [Hfull|Hnot].
    - rewrite decide_True by lia.
      rewrite last_lookup, length_view.
      rewrite view_lookup by (done || lia).
      replace (slot rb (Nat.pred (Z.to_nat (len rb)))) with (cur rb)
        by (unfold slot; case_decide; lia).
      destruct (lookup_lt_is_Some_2 (buf rb) (Z.to_nat (cur rb))) as [d Hd].
      { unfold slen in *. lia. }
      rewrite (index_Ok _ _ d), Hd by (done || lia). done.
    - rewrite decide_False by lia. done. }
  rewrite bind_Ok. cbn beta iota.
  destruct (decide (len rb = slen (buf rb))) as [Hfull|Hnot];
    (rewrite store_Ok by lia; rewrite bind_Ok, !slen_insert;
     eexists; split; [reflexivity|]).
  all: set (rb' := mkRingBuffer _ _ _).
  all: assert (wf rb') as Hwf'
    by (unfold wf, rb'; cbn [buf cur len]; rewrite slen_insert;
        repeat case_decide; lia).
  all: split; [done|]; split; [by unfold rb'; cbn [buf]; rewrite slen_insert|].
  all: eapply (list_eq_same_length _ _ (Z.to_nat (len rb')));
    [ rewrite length_take; cbn [length]; rewrite length_view;
      unfold rb'; cbn [len]; repeat case_decide; lia
    | by rewrite length_view | ].
  all: intros i x y Hi Hx Hy.
  all: rewrite view_lookup in Hx by (done || lia).
  all: rewrite lookup_take_lt in Hy
    by (unfold rb' in Hi; cbn [len] in Hi; repeat case_decide; lia).
  all: destruct i as [|i]; cbn [lookup list_lookup] in Hy.
  all: unfold rb' in Hx, Hi; unfold slot in Hx; cbn [buf cur len] in Hx, Hi;
    rewrite slen_insert in Hx.
  1,3: replace (Z.to_nat _) with (Z.to_nat (cur rb)) in Hx
    by (repeat case_decide; lia).
  1,2: rewrite list_lookup_insert_eq in Hx by (unfold slen in *; lia);
    congruence.
  all: pose proof (view_lookup_lt _ _ _ Hy) as Hi'.
  all: rewrite view_lookup in Hy by done.
  all: rewrite list_lookup_insert_ne in Hx
    by (unfold slot in *; repeat case_decide; lia).
  all: replace (Z.to_nat _) with (Z.to_nat (slot rb i)) in Hx
    by (unfold slot; repeat case_decide; lia).
  all: congruence.
Qed.

(** *** Resize *)

Lemma slot_step_back rb (j : nat) :
  wf rb → Z.of_nat (S j) < len rb →
  (if decide (slot rb j - 1 < 0) then slot rb j - 1 + slen (buf rb)
   else slot rb j - 1) = slot rb (S j).
Proof.
  intros (Hlen & Hcur0 & Hcur & Hpart) Hj. unfold slot.
  repeat case_decide; lia.
Qed.

Lemma Resize_rdcur_slot rb : wf rb → 0 < len rb → Resize_rdcur rb = slot rb 0.
Proof.
  intros (Hlen & Hcur0 & Hcur & Hpart) Hpos. unfold Resize_rdcur, slot.
  repeat case_decide; lia.
Qed.

Lemma Resize_fill_spec rb (n j : nat) (new : list T) (r : Z) :
  wf rb →
  (j + n ≤ Z.to_nat (len rb))%nat →
  ((j < Z.to_nat (len rb))%nat → r = slot rb j) →
  (n ≤ length new)%nat →
  ∃ r', Resize_fill (buf rb) n new r
        = Ok (reverse (take n (drop j (view rb))) ++ drop n new, r') ∧
    ((j + n < Z.to_nat (len rb))%nat → r' = slot rb (j + n)).
Proof.
  intros Hwf. revert j new r.
  induction n as [|n IH]; intros j new r Hjn Hr Hnew.
  - exists r. rewrite Nat.add_0_r. by split.
  - destruct (lookup_lt_is_Some_2 (view rb) j) as [v Hv].
    { rewrite length_view. lia. }
    rewrite Hr by lia. cbn [Resize_fill].
    rewrite (index_slot rb j v), bind_Ok by done.
    rewrite store_Ok, bind_Ok by (unfold slen; lia).
    rewrite Nat2Z.id. cbn zeta.
    destruct (IH (S j) (<[n := v]> new)
                (if decide (slot rb j - 1 < 0) then slot rb j - 1 + slen (buf rb)
                 else slot rb j - 1)) as (r' & -> & Hr').
    + lia.
    + intros Hj. apply slot_step_back; [done | lia].
    + rewrite length_insert. lia.
    + exists r'. split.
      * do 2 f_equal.
        rewrite (drop_S (view rb) v j Hv). cbn [take].
        rewrite reverse_cons, <- app_assoc. f_equal.
        rewrite (drop_S (<[n := v]> new) v n)
          by (apply list_lookup_insert_eq; lia).
        by rewrite drop_insert_lt by lia.
      * intros Hj. rewrite Hr' by lia. f_equal. lia.
Qed.

Lemma Resize_drop_spec rb (n j : nat) (dropped : list T) (r : Z) :
  wf rb →
  (j + n ≤ Z.to_nat (len rb))%nat →
  ((j < Z.to_nat (len rb))%nat → r = slot rb j) →
  ∃ r', Resize_drop (buf rb) n dropped r
        = Ok (dropped ++ take n (drop j (view rb)), r').
Proof.
  intros Hwf. revert j dropped r.
  induction n as [|n IH]; intros j dropped r Hjn Hr.
  - exists r. cbn. by rewrite app_nil_r.
  - destruct (lookup_lt_is_Some_2 (view rb) j) as [v Hv].
    { rewrite length_view. lia. }
    rewrite Hr by lia. cbn [Resize_drop].
    rewrite (index_slot rb j v), bind_Ok by done. cbn zeta.
    destruct (IH (S j) (dropped ++ [v])
                (if decide (slot rb j - 1 < 0) then slot rb j - 1 + slen (buf rb)
                 else slot rb j - 1)) as (r' & ->).
    + lia.
    + intros Hj. apply slot_step_back; [done | lia].
    + exists r'. do 2 f_equal.
      rewrite (drop_S (view rb) v j Hv). cbn [take].
      by rewrite <- app_assoc.
Qed.

Lemma Resize_spec (m : Z) rb :
  wf rb → 0 < m →
  ∃ rb', Resize zero m rb = Ok (rb', drop (Z.to_nat m) (view rb)) ∧
    wf rb' ∧ slen (buf rb') = m ∧
    len rb' = Z.min (len rb) m ∧
    cur rb' = (if decide (len rb < m) then len rb else 0) ∧
    view rb' = take (Z.to_nat m) (view rb).
Proof.
  intros Hwf Hm.
  pose proof Hwf as (Hlen & Hcur0 & Hcur & Hpart).
  unfold Resize. rewrite decide_False by lia. cbn zeta.
  set (fill := if decide (len rb > m) then m else len rb).
  assert (fill = Z.min (len rb) m) as Hfill by (unfold fill; case_decide; lia).
  rewrite make_Ok, bind_Ok by lia.
  destruct (Resize_fill_spec rb (Z.to_nat (fill - 1 + 1)) 0
              (replicate (Z.to_nat m) zero) (Resize_rdcur rb))
    as (r1 & -> & Hr1); [done | lia | | rewrite length_replicate; lia |].
  { intros H0. apply Resize_rdcur_slot; [done | lia]. }
  rewrite bind_Ok. cbn beta iota.
  destruct (Resize_drop_spec rb (Z.to_nat (len rb - m))
              (Z.to_nat (fill - 1 + 1)) [] r1) as (r2 & ->);
    [done | lia | |].
  { intros H0. apply Hr1. lia. }
  rewrite bind_Ok. cbn beta iota.
  replace (Z.to_nat (fill - 1 + 1)) with (Z.to_nat fill) by lia.
  rewrite drop_0, app_nil_l.
  set (new := reverse (take (Z.to_nat fill) (view rb)) ++ _).
  assert (length new = Z.to_nat m) as Hnew.
  { unfold new. rewrite length_app, length_reverse, length_take, length_view,
      length_drop, length_replicate. lia. }
  set (rb' := mkRingBuffer new _ _).
  assert (wf rb') as Hwf'.
  { unfold wf, rb'; cbn [buf cur len]. unfold slen. rewrite Hnew.
    repeat case_decide; lia. }
  exists rb'. split; [|split; [done|]; split; [|split; [|split]]].
  - f_equal. f_equal.
    destruct (decide (len rb ≤ m)) as [Hle|Hgt].
    + replace (Z.to_nat (len rb - m)) with 0%nat by lia.
      rewrite (drop_ge _ (Z.to_nat m)) by (rewrite length_view; lia). done.
    + replace (Z.to_nat fill) with (Z.to_nat m) by lia.
      apply take_ge. rewrite length_drop, length_view. lia.
  - unfold rb'; cbn [buf]. unfold slen. lia.
  - unfold rb'; cbn [len]. done.
  - unfold rb'; cbn [cur]. repeat case_decide; lia.
  - eapply (list_eq_same_length _ _ (Z.to_nat fill)).
    + rewrite length_take, length_view. lia.
    + rewrite length_view. unfold rb'; cbn [len]. done.
    + intros i x y Hi Hx Hy.
      rewrite view_lookup in Hx by (done || unfold rb'; cbn [len]; lia).
      rewrite lookup_take_lt in Hy by lia.
      replace (Z.to_nat (slot rb' i)) with (Z.to_nat fill - S i)%nat in Hx
        by (unfold slot, rb'; cbn [buf cur len]; unfold slen; rewrite Hnew;
            repeat case_decide; lia).
      unfold rb' in Hx; cbn [buf] in Hx. unfold new in Hx.
      assert (length (take (Z.to_nat fill) (view rb)) = Z.to_nat fill) as Htk
        by (rewrite length_take, length_view; lia).
      rewrite lookup_app_l in Hx by (rewrite length_reverse; lia).
      rewrite reverse_lookup in Hx by lia.
      rewrite Htk in Hx.
      replace (Z.to_nat fill - S (Z.to_nat fill - S i))%nat with i in Hx by lia.
      rewrite lookup_take_lt in Hx by lia. congruence.
Qed.

(** *** NewRingBuffer, and Add on a buffer without storage *)

Lemma NewRingBuffer_spec (sz : Z) :
  0 ≤ sz →
  ∃ rb, NewRingBuffer zero sz = Ok rb ∧ wf rb ∧ slen (buf rb) = sz ∧
    cur rb = 0 ∧ len rb = 0 ∧ view rb = [].
Proof.
  intros Hsz. unfold NewRingBuffer. rewrite make_Ok, bind_Ok by done.
  eexists. split; [reflexivity|]. cbn [buf cur len].
  rewrite slen_replicate. unfold wf; cbn [buf cur len].
  rewrite slen_replicate. repeat split; lia.
Qed.

Lemma Add_no_storage v rb :
  slen (buf rb) ≤ 0 → Add zero v rb = Ok (rb, (zero, false)).
Proof. intros Hcap. unfold Add. by rewrite decide_True. Qed.

Lemma Resize_ignored (m : Z) rb : m ≤ 0 → Resize zero m rb = Ok (rb, []).
Proof. intros Hm. unfold Resize. by rewrite decide_True. Qed.

Lemma view_empty rb : len rb ≤ 0 → view rb = [].
Proof.
  intros Hlen. unfold view.
  replace (Z.to_nat (len rb)) with 0%nat by lia. done.
Qed.

(** *** Overview *)

Lemma Overview_spec rb :
  wf rb →
  Overview zero rb
  = Ok (default zero (head (view rb)), default zero (last (view rb)),
        Z.of_nat (length (view rb))).
Proof.
  intros Hwf. pose proof Hwf as (Hlen & Hcur0 & Hcur & Hpart).
  unfold Overview. case_decide as Hempty.
  - rewrite view_empty by lia. done.
  - cbn zeta.
    set (headidx := if decide (cur rb - 1 < 0) then _ else _).
    set (tailidx := if decide (headidx - (len rb - 1) < 0) then _ else _).
    assert (headidx = slot rb 0) as ->
      by (unfold headidx, slot; repeat case_decide; lia).
    assert (tailidx = slot rb (Nat.pred (Z.to_nat (len rb)))) as ->
      by (unfold tailidx, slot; repeat case_decide; lia).
    destruct (lookup_lt_is_Some_2 (view rb) 0) as [newest Hnewest].
    { rewrite length_view. lia. }
    destruct (lookup_lt_is_Some_2 (view rb) (Nat.pred (Z.to_nat (len rb))))
      as [oldest Holdest].
    { rewrite length_view. lia. }
    rewrite (index_slot rb _ newest Hwf Hnewest), bind_Ok.
    rewrite (index_slot rb _ oldest Hwf Holdest), bind_Ok.
    rewrite head_lookup, Hnewest, last_lookup, length_view, Holdest.
    cbn. do 3 f_equal. lia.
Qed.

(** *** Copy and Take *)

Lemma Copy_fn_unfold v (dst : list T) (index : Z) :
  Copy_fn v (dst, index)
  = (if decide (index >= slen dst) then mret ((dst, index), Some io_EOF)
     else dst ← store dst index v; mret ((dst, index + 1), None)).
Proof. reflexivity. Qed.

Lemma visit_Copy_fn vals (dst : list T) (k : nat) :
  (k ≤ length dst)%nat →
  ∃ dst' e,
    visit Copy_fn vals (dst, Z.of_nat k)
    = Ok ((dst', Z.of_nat (Nat.min (length dst) (k + length vals))), e) ∧
    length dst' = length dst ∧
    take (Nat.min (length dst) (k + length vals)) dst'
    = take k dst ++ take (length dst - k) vals.
Proof.
  revert dst k. induction vals as [|v vals IH]; intros dst k Hk.
  - exists dst, None. cbn [visit length].
    replace (Nat.min (length dst) (k + 0)) with k by lia.
    rewrite take_nil, app_nil_r. done.
  - cbn [visit]. rewrite Copy_fn_unfold.
    destruct (decide (Z.of_nat k >= slen dst)) as [Hfull|Hroom].
    + exists dst, (Some io_EOF). rewrite bind_Ok.
      unfold slen in Hfull.
      replace (Nat.min (length dst) (k + length (v :: vals))) with k by lia.
      replace (length dst - k)%nat with 0%nat by lia.
      rewrite take_0, app_nil_r. done.
    + unfold slen in Hroom.
      rewrite store_Ok, !bind_Ok by (unfold slen; lia). cbn beta iota.
      rewrite Nat2Z.id.
      replace (Z.of_nat k + 1) with (Z.of_nat (S k)) by lia.
      destruct (IH (<[k := v]> dst) (S k)) as (dst' & e & -> & Hlen & Htake).
      { rewrite length_insert. lia. }
      rewrite length_insert in Hlen, Htake |- *.
      exists dst', e. cbn [length].
      replace (k + S (length vals))%nat with (S k + length vals)%nat by lia.
      split; [done|]. split; [done|].
      rewrite Htake.
      rewrite (take_S_r (<[k := v]> dst) k v)
        by (apply list_lookup_insert_eq; lia).
      rewrite take_insert_ge by lia.
      replace (length dst - k)%nat with (S (length dst - S k)) by lia.
      cbn [take]. by rewrite <- app_assoc.
Qed.

Lemma Take_spec (n : Z) rb :
  wf rb → 0 ≤ n → Take zero n rb = Ok (take (Z.to_nat n) (view rb), None).
Proof.
  intros Hwf Hn. unfold Take, Copy.
  rewrite make_Ok, bind_Ok, Walk_view by done.
  destruct (visit_Copy_fn (view rb) (replicate (Z.to_nat n) zero) 0)
    as (dst' & e & Hvisit & Hlen & Htake); [lia|].
  change (Z.of_nat 0) with 0 in Hvisit. rewrite Hvisit, !bind_Ok.
  cbn beta iota.
  rewrite length_replicate in Hlen, Htake |- *.
  rewrite slice_to_Ok by (unfold slen; lia).
  rewrite bind_Ok, Nat2Z.id, Htake.
  rewrite take_0, app_nil_l, Nat.sub_0_r. done.
Qed.

Lemma Take_negative (n : Z) rb :
  n < 0 → Take zero n rb = Panic makeslice_len_out_of_range.
Proof. intros Hn. unfold Take. by rewrite make_negative. Qed.

(** *** Sequences of calls *)

Lemma Add_all_spec vals rb :
  wf rb → 0 < slen (buf rb) →
  ∃ rb', Add_all zero vals rb = Ok rb' ∧ wf rb' ∧
    slen (buf rb') = slen (buf rb) ∧
    view rb' = take (Z.to_nat (slen (buf rb))) (reverse vals ++ view rb).
Proof.
  revert rb. induction vals as [|v vals IH]; intros rb Hwf Hcap.
  - exists rb. cbn [Add_all]. split; [done|]. split; [done|]. split; [done|].
    rewrite reverse_nil, app_nil_l, take_ge; [done|].
    rewrite length_view. destruct Hwf as (Hlen & _). lia.
  - cbn [Add_all].
    destruct (Add_spec v rb Hwf Hcap) as (rb1 & -> & Hwf1 & Hcap1 & Hview1).
    rewrite bind_Ok. cbn beta iota.
    destruct (IH rb1 Hwf1) as (rb' & -> & Hwf' & Hcap' & Hview'); [lia|].
    exists rb'. split; [done|]. split; [done|]. split; [lia|].
    rewrite Hview', Hview1, Hcap1, reverse_cons, <- app_assoc. cbn [app].
    set (c := Z.to_nat (slen (buf rb))).
    rewrite !take_app, take_take.
    replace (Nat.min (c - length (reverse vals)) c)
      with (c - length (reverse vals))%nat by lia.
    done.
Qed.

Lemma do_call_wf (c : call T) rb :
  wf rb → ∃ rb', do_call zero c rb = Ok rb' ∧ wf rb'.
Proof.
  intros Hwf. destruct c as [v|m]; cbn [do_call].
  - destruct (decide (0 < slen (buf rb))) as [Hcap|Hcap].
    + destruct (Add_spec v rb Hwf Hcap) as (rb' & -> & Hwf' & _).
      by exists rb'.
    + rewrite Add_no_storage by lia. by exists rb.
  - destruct (decide (0 < m)) as [Hm|Hm].
    + destruct (Resize_spec m rb Hwf Hm) as (rb' & -> & Hwf' & _).
      by exists rb'.
    + rewrite Resize_ignored by lia. by exists rb.
Qed.

Lemma do_calls_wf (cs : list (call T)) rb :
  wf rb → ∃ rb', do_calls zero cs rb = Ok rb' ∧ wf rb'.
Proof.
  revert rb. induction cs as [|c cs IH]; intros rb Hwf; cbn [do_calls].
  - by exists rb.
  - destruct (do_call_wf c rb Hwf) as (rb1 & -> & Hwf1).
    rewrite bind_Ok. by apply IH.
Qed.

End BufferFacts.

(** ** The set of ring buffers *)

Section RegistryFacts.

Context {T : Type} (zero : T).
Implicit Types (w : world T) (m : list (RingBuffer T)) (b : RingBuffer T).
Implicit Types (rb : ptr) (category : string).

Lemma mem_le_refl m : mem_le m m.
Proof. intros rb b Hb. by exists b. Qed.

Lemma mem_le_trans m1 m2 m3 : mem_le m1 m2 → mem_le m2 m3 → mem_le m1 m3.
Proof.
  intros H12 H23 rb b Hb.
  destruct (H12 rb b Hb) as (b2 & Hb2 & Hcap2).
  destruct (H23 rb b2 Hb2) as (b3 & Hb3 & Hcap3).
  exists b3. split; [done | auto].
Qed.

Lemma mem_le_app m b : mem_le m (m ++ [b]).
Proof.
  intros rb b0 Hb0. exists b0. split; [|done].
  by apply lookup_app_l_Some.
Qed.

Lemma mem_le_insert m rb b b' :
  m !! rb = Some b → (0 < slen (buf b) → 0 < slen (buf b')) →
  mem_le m (<[rb := b']> m).
Proof.
  intros Hb Hcap q bq Hq. destruct (decide (q = rb)) as [->|Hne].
  - assert (bq = b) as -> by congruence.
    exists b'. split; [|done].
    apply list_lookup_insert_eq. by eapply lookup_lt_Some.
  - exists bq. split; [|done]. by rewrite list_lookup_insert_ne.
Qed.

Lemma NewWorld_winv (s : Z) : winv (NewWorld (T := T) s).
Proof.
  unfold winv, NewWorld; cbn. split; [lia|]. split; [constructor|].
  intros category rb Hrb. by rewrite lookup_empty in Hrb.
Qed.

Lemma deref_Ok w rb b : mem w !! rb = Some b → deref w rb = Ok b.
Proof. intros Hb. unfold deref. by rewrite Hb. Qed.

(** *** GetOrCreate *)

Lemma GetOrCreate_present category w rb :
  bufs (rbs w) !! category = Some rb → GetOrCreate zero category w = Ok (rb, w).
Proof. intros Hrb. unfold GetOrCreate. by rewrite Hrb. Qed.

Lemma GetOrCreate_absent category w :
  0 ≤ sz (rbs w) → bufs (rbs w) !! category = None →
  GetOrCreate zero category w
  = Ok (length (mem w),
        {| mem := mem w ++ [ {| buf := replicate (Z.to_nat (sz (rbs w))) zero;
                                cur := 0; len := 0 |} ];
           rbs := {| sz := sz (rbs w);
                     bufs := <[category := length (mem w)]> (bufs (rbs w)) |} |}).
Proof.
  intros Hsz Hnone. unfold GetOrCreate, NewRingBuffer. rewrite Hnone.
  by rewrite make_Ok by done.
Qed.

Lemma GetOrCreate_spec category w :
  winv w →
  ∃ rb w', GetOrCreate zero category w = Ok (rb, w') ∧
    winv w' ∧ mem_le (mem w) (mem w') ∧
    sz (rbs w') = sz (rbs w) ∧
    bufs (rbs w') !! category = Some rb ∧
    (∀ c rb0, bufs (rbs w) !! c = Some rb0 → bufs (rbs w') !! c = Some rb0).
Proof.
  intros (Hsz & Hwf & Hbufs).
  destruct (bufs (rbs w) !! category) as [rb|] eqn:Hlook.
  - exists rb, w. rewrite (GetOrCreate_present category w rb) by done.
    split; [done|]. split; [done|]. split; [apply mem_le_refl|]. done.
  - eexists _, _. rewrite GetOrCreate_absent by (done || lia).
    split; [reflexivity|]. unfold winv. cbn [mem rbs sz bufs].
    split; [|split; [apply mem_le_app|split; [done|split]]].
    + split; [done|]. split.
      * apply Forall_app. split; [done|]. apply Forall_singleton.
        unfold wf; cbn [buf cur len]. rewrite slen_replicate. lia.
      * intros c rb0 Hc. destruct (decide (c = category)) as [->|Hne].
        -- rewrite lookup_insert_eq in Hc. injection Hc as <-.
           eexists. split; [by apply list_lookup_middle|].
           cbn [buf]. rewrite slen_replicate. lia.
        -- rewrite lookup_insert_ne in Hc by done.
           destruct (Hbufs c rb0 Hc) as (b & Hb & Hcap).
           exists b. split; [by apply lookup_app_l_Some | done].
    + by rewrite lookup_insert_eq.
    + intros c rb0 Hc. rewrite lookup_insert_ne; [done|]. congruence.
Qed.

(** *** Resize of every buffer *)

Lemma Resize_each_spec (sz' : Z) (entries : list (string * ptr)) m
    (dropped : gmap string (list T)) :
  0 < sz' → Forall wf m → Forall (λ e, (e.2 < length m)%nat) entries →
  ∃ m' dropped', Resize_each zero sz' entries m dropped = Ok (m', dropped') ∧
    Forall wf m' ∧ mem_le m m'.
Proof.
  intros Hsz. revert m dropped.
  induction entries as [|[name rb] entries IH]; intros m dropped Hwf Hvalid.
  - exists m, dropped. split; [done|]. split; [done | apply mem_le_refl].
  - apply Forall_cons in Hvalid as [Hrb Hvalid]. cbn [snd] in Hrb.
    destruct (lookup_lt_is_Some_2 m rb Hrb) as [b Hb].
    cbn [Resize_each]. rewrite Hb, bind_Ok.
    destruct (Resize_spec zero sz' b) as (b' & -> & Hwf' & Hcap' & _);
      [by eapply Forall_lookup_1 | done |].
    rewrite bind_Ok. cbn beta iota zeta.
    destruct (IH (<[rb := b']> m)
                (<[name := default [] (dropped !! name)
                           ++ drop (Z.to_nat sz') (view zero b)]> dropped))
      as (m' & dropped' & -> & Hwfm' & Hle).
    + by apply Forall_insert.
    + eapply Forall_impl; [exact Hvalid|]. intros e He.
      by rewrite length_insert.
    + exists m', dropped'. split; [done|]. split; [done|].
      eapply mem_le_trans; [|exact Hle].
      eapply mem_le_insert; [done | lia].
Qed.

Lemma RingBuffers_Resize_ignored (x : Z) w :
  x ≤ 0 → RingBuffers_Resize zero x w = Ok (w, None).
Proof. intros Hx. unfold RingBuffers_Resize. by rewrite decide_True. Qed.

Lemma RingBuffers_Resize_spec (sz' : Z) w :
  winv w → 0 < sz' →
  ∃ m' dropped,
    RingBuffers_Resize zero sz' w
    = Ok ({| mem := m'; rbs := {| sz := sz'; bufs := bufs (rbs w) |} |},
          Some dropped) ∧
    winv {| mem := m'; rbs := {| sz := sz'; bufs := bufs (rbs w) |} |} ∧
    mem_le (mem w) m'.
Proof.
  intros (Hsz & Hwf & Hbufs) Hsz'. unfold RingBuffers_Resize.
  rewrite decide_False by lia.
  destruct (Resize_each_spec sz' (map_to_list (bufs (rbs w))) (mem w) ∅)
    as (m' & dropped & -> & Hwf' & Hle); [done | done | |].
  { apply Forall_forall. intros [name rb] He.
    apply elem_of_map_to_list in He.
    destruct (Hbufs name rb He) as (b & Hb & _).
    by eapply lookup_lt_Some. }
  exists m', dropped. split; [done|]. split; [|done].
  split; [cbn; lia|]. split; [done|]. cbn [mem rbs bufs].
  intros c rb Hc. destruct (Hbufs c rb Hc) as (b & Hb & Hcap).
  destruct (Hle rb b Hb) as (b' & Hb' & Hcap'). exists b'. auto.
Qed.

(** *** The order in which Resize ranges over the map *)

Lemma GetAll_bufs w : GetAll w = bufs (rbs w).
Proof.
  unfold GetAll.
  apply (map_fold_weak_ind (λ all (m : gmap string ptr), all = m)); [done|].
  intros name rb m all _ ->. done.
Qed.

Lemma Resize_each_cons (sz' : Z) name rb entries m
    (dropped : gmap string (list T)) b :
  0 < sz' → m !! rb = Some b → wf b →
  ∃ b', Resize zero sz' b = Ok (b', drop (Z.to_nat sz') (view zero b)) ∧
    wf b' ∧
    Resize_each zero sz' ((name, rb) :: entries) m dropped
    = Resize_each zero sz' entries (<[rb := b']> m)
        (<[name := default [] (dropped !! name)
                   ++ drop (Z.to_nat sz') (view zero b)]> dropped).
Proof.
  intros Hsz Hb Hwf.
  destruct (Resize_spec zero sz' b Hwf Hsz) as (b' & HR & Hwf' & _).
  exists b'. split; [done|]. split; [done|].
  cbn [Resize_each]. by rewrite Hb, bind_Ok, HR, bind_Ok.
Qed.

(** With well-formed buffers, and different categories holding different
    buffers, the result does not depend on the order of the entries. *)
Lemma Resize_each_Permutation (sz' : Z) (entries entries' : list (string * ptr))
    m (dropped : gmap string (list T)) :
  0 < sz' → Forall wf m →
  Forall (λ e, (e.2 < length m)%nat) entries →
  NoDup entries.*1 → NoDup entries.*2 →
  entries ≡ₚ entries' →
  Resize_each zero sz' entries m dropped
  = Resize_each zero sz' entries' m dropped.
Proof.
  intros Hsz Hwf Hvalid Hnames Hptrs Hperm. revert m dropped Hwf Hvalid Hnames Hptrs.
  induction Hperm as [|[name rb] l l' Hperm IH
                      |[name1 rb1] [name2 rb2] l|l1 l2 l3 Hp12 IH12 Hp23 IH23];
    intros m dropped Hwf Hvalid Hnames Hptrs.
  - done.
  - apply Forall_cons in Hvalid as [Hrb Hvalid]. cbn [snd] in Hrb.
    rewrite fmap_cons in Hnames. rewrite fmap_cons in Hptrs.
    apply NoDup_cons in Hnames as [_ Hnames].
    apply NoDup_cons in Hptrs as [_ Hptrs].
    destruct (lookup_lt_is_Some_2 m rb Hrb) as [b Hb].
    assert (wf b) as Hwfb by by eapply Forall_lookup_1.
    destruct (Resize_each_cons sz' name rb l m dropped b)
      as (b' & HR' & Hwf' & ->); [done..|].
    destruct (Resize_each_cons sz' name rb l' m dropped b)
      as (b'' & HR'' & _ & ->); [done..|].
    assert (b'' = b') as -> by congruence.
    apply IH; [by apply Forall_insert | | done | done].
    eapply Forall_impl; [exact Hvalid|]. intros e He. by rewrite length_insert.
  - apply Forall_cons in Hvalid as [Hrb2 Hvalid].
    apply Forall_cons in Hvalid as [Hrb1 Hvalid]. cbn [snd] in Hrb1, Hrb2.
    rewrite !fmap_cons in Hnames. rewrite !fmap_cons in Hptrs.
    cbn [fst snd] in Hnames, Hptrs.
    apply NoDup_cons in Hnames as [Hname _].
    apply NoDup_cons in Hptrs as [Hptr _].
    assert (name2 ≠ name1) as Hnn by (intros ->; apply Hname; left).
    assert (rb2 ≠ rb1) as Hpp by (intros ->; apply Hptr; left).
    destruct (lookup_lt_is_Some_2 m rb1 Hrb1) as [b1 Hb1].
    destruct (lookup_lt_is_Some_2 m rb2 Hrb2) as [b2 Hb2].
    assert (wf b1) as Hwf1 by by eapply Forall_lookup_1.
    assert (wf b2) as Hwf2 by by eapply Forall_lookup_1.
    destruct (Resize_spec zero sz' b1 Hwf1 Hsz) as (b1' & HR1 & _).
    destruct (Resize_spec zero sz' b2 Hwf2 Hsz) as (b2' & HR2 & _).
    cbn [Resize_each].
    rewrite Hb1, Hb2, !bind_Ok, HR1, HR2, !bind_Ok. cbn beta iota zeta.
    rewrite !list_lookup_insert_ne by done.
    rewrite Hb1, Hb2, !bind_Ok, HR1, HR2, !bind_Ok. cbn beta iota zeta.
    rewrite !lookup_insert_ne by done.
    rewrite (list_insert_insert_ne m rb1 rb2) by done.
    rewrite (insert_insert_ne dropped name1 name2) by done.
    done.
  - rewrite IH12 by done.
    apply IH23; [done | by rewrite <- Hp12 | by rewrite <- Hp12 ..].
Qed.

Lemma handles_distinct_NoDup w :
  handles_distinct w → NoDup (map_to_list (bufs (rbs w))).*2.
Proof.
  intros Hdistinct. apply NoDup_fmap_2_strong; [|apply NoDup_map_to_list].
  intros [c1 rb1] [c2 rb2] H1 H2 Heq. cbn [snd] in Heq. subst rb2.
  apply elem_of_map_to_list in H1, H2.
  by rewrite (Hdistinct c1 c2 rb1 H1 H2).
Qed.

(** [RingBuffers.Resize] gives the same state and the same dropped values
    whatever order the range over [rbs.bufs] takes. *)
Lemma RingBuffers_Resize_any_order (sz' : Z) w (entries : list (string * ptr)) :
  winv w → handles_distinct w → 0 < sz' →
  entries ≡ₚ map_to_list (bufs (rbs w)) →
  Resize_each zero sz' entries (mem w) ∅
  = Resize_each zero sz' (map_to_list (bufs (rbs w))) (mem w) ∅.
Proof.
  intros (Hsz & Hwf & Hbufs) Hdistinct Hsz' Hperm. symmetry.
  apply Resize_each_Permutation; [done | done | | | | done].
  - apply Forall_forall. intros [name rb] He.
    apply elem_of_map_to_list in He.
    destruct (Hbufs name rb He) as (b & Hb & _). by eapply lookup_lt_Some.
  - apply NoDup_fst_map_to_list.
  - by apply handles_distinct_NoDup.
Qed.

(** *** Calls through a handle *)

Lemma Add_total (v : T) b :
  wf b → ∃ b' r, Add zero v b = Ok (b', r) ∧ wf b' ∧
    slen (buf b') = slen (buf b).
Proof.
  intros Hwf. destruct (decide (0 < slen (buf b))) as [Hcap|Hcap].
  - destruct (Add_spec zero v b Hwf Hcap) as (b' & -> & Hwf' & Hcap' & _).
    by eexists _, _.
  - rewrite Add_no_storage by lia. by eexists _, _.
Qed.

Lemma Resize_total (x : Z) b :
  wf b → ∃ b' dropped, Resize zero x b = Ok (b', dropped) ∧ wf b' ∧
    (0 < slen (buf b) → 0 < slen (buf b')).
Proof.
  intros Hwf. destruct (decide (0 < x)) as [Hx|Hx].
  - destruct (Resize_spec zero x b Hwf Hx) as (b' & -> & Hwf' & Hcap' & _).
    eexists _, _. split; [done|]. split; [done | lia].
  - rewrite Resize_ignored by lia. by exists b, [].
Qed.

Lemma winv_update w rb b b' :
  winv w → mem w !! rb = Some b → wf b' →
  (0 < slen (buf b) → 0 < slen (buf b')) →
  winv {| mem := <[rb := b']> (mem w); rbs := rbs w |} ∧
  mem_le (mem w) (<[rb := b']> (mem w)).
Proof.
  intros (Hsz & Hwf & Hbufs) Hb Hwf' Hcap.
  assert (mem_le (mem w) (<[rb := b']> (mem w))) as Hle
    by by eapply mem_le_insert.
  split; [|done]. split; [done|]. split; [by apply Forall_insert|].
  cbn [mem rbs]. intros c rb0 Hc.
  destruct (Hbufs c rb0 Hc) as (b0 & Hb0 & Hcap0).
  destruct (Hle rb0 b0 Hb0) as (b1 & Hb1 & Hcap1). exists b1. auto.
Qed.

Lemma winv_alloc w b :
  winv w → wf b → winv (alloc b w).2 ∧ mem_le (mem w) (mem (alloc b w).2).
Proof.
  intros (Hsz & Hwf & Hbufs) Hb. unfold alloc; cbn [snd mem rbs].
  split; [|apply mem_le_app]. split; [done|]. split.
  - apply Forall_app. split; [done | by apply Forall_singleton].
  - cbn [mem rbs]. intros c rb0 Hc.
    destruct (Hbufs c rb0 Hc) as (b0 & Hb0 & Hcap0).
    exists b0. split; [by apply lookup_app_l_Some | done].
Qed.

(** *** Histories *)

(** A call that returns keeps the invariant, keeps every buffer allocated
    and keeps every category's handle. *)
Lemma step_winv (o : op T) w w' :
  winv w → step zero o w = Ok w' →
  winv w' ∧ mem_le (mem w) (mem w') ∧
  (∀ c rb0, bufs (rbs w) !! c = Some rb0 → bufs (rbs w') !! c = Some rb0).
Proof.
  intros Hinv Hstep. pose proof Hinv as (Hsz & Hwf & Hbufs).
  destruct o as [n|category| |n|rb v|rb n|rb|rb|rb n]; cbn [step] in Hstep.
  - apply bind_Ok_inv in Hstep as (b & Hb & [= <-]).
    destruct (decide (0 ≤ n)) as [Hn|Hn].
    + destruct (NewRingBuffer_spec zero n Hn) as (b0 & Hb0 & Hwf0 & _).
      assert (b0 = b) as -> by congruence.
      destruct (winv_alloc w b Hinv Hwf0). done.
    + unfold NewRingBuffer in Hb. by rewrite make_negative in Hb by lia.
  - destruct (GetOrCreate_spec category w Hinv)
      as (rb & w1 & HG & Hinv1 & Hle & _ & _ & Hkeep).
    rewrite HG in Hstep. injection Hstep as <-. done.
  - injection Hstep as <-. split; [done|]. split; [apply mem_le_refl | done].
  - destruct (decide (0 < n)) as [Hn|Hn].
    + destruct (RingBuffers_Resize_spec n w Hinv Hn)
        as (m' & dropped & HR & Hinv' & Hle).
      rewrite HR in Hstep. injection Hstep as <-. done.
    + rewrite RingBuffers_Resize_ignored in Hstep by lia.
      injection Hstep as <-. split; [done|]. split; [apply mem_le_refl | done].
  - unfold Add_at in Hstep.
    apply bind_Ok_inv in Hstep as ([w1 r] & Hstep & [= <-]).
    apply bind_Ok_inv in Hstep as (b & Hb & Hstep).
    unfold deref in Hb. destruct (mem w !! rb) as [b0|] eqn:Hb0; [|done].
    injection Hb as ->.
    destruct (Add_total v b) as (b' & r' & HA & Hwf' & Hcap');
      [by eapply Forall_lookup_1|].
    rewrite HA in Hstep. injection Hstep as <- _.
    destruct (winv_update w rb b b' Hinv Hb0 Hwf') as [Hinv' Hle]; [lia|].
    done.
  - unfold Resize_at in Hstep.
    apply bind_Ok_inv in Hstep as ([w1 r] & Hstep & [= <-]).
    apply bind_Ok_inv in Hstep as (b & Hb & Hstep).
    unfold deref in Hb. destruct (mem w !! rb) as [b0|] eqn:Hb0; [|done].
    injection Hb as ->.
    destruct (Resize_total n b) as (b' & d & HR & Hwf' & Hcap');
      [by eapply Forall_lookup_1|].
    rewrite HR in Hstep. injection Hstep as <- _.
    destruct (winv_update w rb b b' Hinv Hb0 Hwf' Hcap') as [Hinv' Hle].
    done.
  - apply bind_Ok_inv in Hstep as (? & _ & [= <-]).
    split; [done|]. split; [apply mem_le_refl | done].
  - apply bind_Ok_inv in Hstep as (? & _ & [= <-]).
    split; [done|]. split; [apply mem_le_refl | done].
  - apply bind_Ok_inv in Hstep as (? & _ & [= <-]).
    split; [done|]. split; [apply mem_le_refl | done].
Qed.

(** A call Go lets the program make returns. *)
Lemma step_safe (o : op T) w :
  winv w → op_safe w o → ∃ w', step zero o w = Ok w'.
Proof.
  intros Hinv Hsafe. pose proof Hinv as (Hsz & Hwf & Hbufs).
  destruct o as [n|category| |n|rb v|rb n|rb|rb|rb n];
    cbn [step op_safe] in Hsafe |- *.
  - destruct (NewRingBuffer_spec zero n Hsafe) as (b0 & -> & _). by eexists.
  - destruct (GetOrCreate_spec category w Hinv) as (rb & w1 & -> & _).
    by eexists.
  - by eexists.
  - destruct (decide (0 < n)) as [Hn|Hn].
    + destruct (RingBuffers_Resize_spec n w Hinv Hn) as (m' & d & -> & _).
      by eexists.
    + rewrite RingBuffers_Resize_ignored by lia. by eexists.
  - destruct (lookup_lt_is_Some_2 (mem w) rb Hsafe) as [b Hb].
    unfold Add_at. rewrite (deref_Ok w rb b Hb), bind_Ok.
    destruct (Add_total v b) as (b' & r' & -> & _);
      [by eapply Forall_lookup_1|].
    by eexists.
  - destruct (lookup_lt_is_Some_2 (mem w) rb Hsafe) as [b Hb].
    unfold Resize_at. rewrite (deref_Ok w rb b Hb), bind_Ok.
    destruct (Resize_total n b) as (b' & d & -> & _);
      [by eapply Forall_lookup_1|].
    by eexists.
  - destruct (lookup_lt_is_Some_2 (mem w) rb Hsafe) as [b Hb].
    unfold walked_at. rewrite (deref_Ok w rb b Hb), bind_Ok.
    rewrite (walked_view zero) by by eapply Forall_lookup_1. by eexists.
  - destruct (lookup_lt_is_Some_2 (mem w) rb Hsafe) as [b Hb].
    unfold Overview_at. rewrite (deref_Ok w rb b Hb), bind_Ok.
    rewrite Overview_spec by by eapply Forall_lookup_1. by eexists.
  - destruct Hsafe as [Hrb Hn].
    destruct (lookup_lt_is_Some_2 (mem w) rb Hrb) as [b Hb].
    unfold Take_at. rewrite (deref_Ok w rb b Hb), bind_Ok.
    rewrite Take_spec by (done || by eapply Forall_lookup_1). by eexists.
Qed.

Lemma steps_winv (os : list (op T)) w w' :
  winv w → steps zero os w = Ok w' →
  winv w' ∧ mem_le (mem w) (mem w') ∧
  (∀ c rb0, bufs (rbs w) !! c = Some rb0 → bufs (rbs w') !! c = Some rb0).
Proof.
  revert w. induction os as [|o os IH]; intros w Hinv Hsteps.
  - injection Hsteps as <-. split; [done|]. split; [apply mem_le_refl | done].
  - cbn [steps] in Hsteps.
    apply bind_Ok_inv in Hsteps as (w1 & Hstep & Hsteps).
    destruct (step_winv o w w1 Hinv Hstep) as (Hinv1 & Hle1 & Hkeep1).
    destruct (IH w1 Hinv1 Hsteps) as (Hinv' & Hle' & Hkeep').
    split; [done|]. split; [by eapply mem_le_trans | auto].
Qed.

(** A call other than a [Resize] of the set to a positive size leaves the
    default size alone. *)
Lemma step_keeps_default (o : op T) w w' :
  keeps_default o = true → step zero o w = Ok w' → sz (rbs w') = sz (rbs w).
Proof.
  intros Hkeep Hstep.
  destruct o as [n|category| |n|rb v|rb n|rb|rb|rb n];
    cbn [step keeps_default] in Hstep, Hkeep.
  4: { apply bool_decide_eq_true in Hkeep.
       rewrite RingBuffers_Resize_ignored in Hstep by done.
       by injection Hstep as <-. }
  - by apply bind_Ok_inv in Hstep as (b & Hb & [= <-]).
  - apply bind_Ok_inv in Hstep as ([rb w1] & Hstep & [= <-]).
    unfold GetOrCreate in Hstep.
    destruct (bufs (rbs w) !! category); [by injection Hstep as _ <-|].
    by apply bind_Ok_inv in Hstep as (b & Hb & [= _ <-]).
  - by injection Hstep as <-.
  - apply bind_Ok_inv in Hstep as ([w1 r] & Hstep & [= <-]).
    unfold Add_at in Hstep.
    apply bind_Ok_inv in Hstep as (b & _ & Hstep).
    by apply bind_Ok_inv in Hstep as ([b' r'] & _ & [= <- _]).
  - apply bind_Ok_inv in Hstep as ([w1 r] & Hstep & [= <-]).
    unfold Resize_at in Hstep.
    apply bind_Ok_inv in Hstep as (b & _ & Hstep).
    by apply bind_Ok_inv in Hstep as ([b' r'] & _ & [= <- _]).
  - by apply bind_Ok_inv in Hstep as (? & _ & [= <-]).
  - by apply bind_Ok_inv in Hstep as (? & _ & [= <-]).
  - by apply bind_Ok_inv in Hstep as (? & _ & [= <-]).
Qed.

Lemma steps_keep_default (os : list (op T)) w w' :
  forallb keeps_default os = true → steps zero os w = Ok w' →
  sz (rbs w') = sz (rbs w).
Proof.
  revert w. induction os as [|o os IH]; intros w Hkeep Hsteps.
  - by injection Hsteps as <-.
  - cbn [forallb] in Hkeep. apply andb_prop in Hkeep as [Ho Hos].
    cbn [steps] in Hsteps.
    apply bind_Ok_inv in Hsteps as (w1 & Hstep & Hsteps).
    rewrite (IH w1 Hos Hsteps). by eapply step_keeps_default.
Qed.

Lemma step_keeps_rbs_or_extends (o : op T) w w' :
  step zero o w = Ok w' →
  bufs (rbs w') = bufs (rbs w) ∨
  ∃ category, bufs (rbs w) !! category = None ∧
    bufs (rbs w') = <[category := length (mem w)]> (bufs (rbs w)).
Proof.
  intros Hstep.
  destruct o as [n|category| |n|rb v|rb n|rb|rb|rb n]; cbn [step] in Hstep.
  - apply bind_Ok_inv in Hstep as (b & _ & [= <-]). by left.
  - apply bind_Ok_inv in Hstep as ([rb w1] & Hstep & [= <-]).
    unfold GetOrCreate in Hstep.
    destruct (bufs (rbs w) !! category) eqn:Hlook.
    + injection Hstep as _ <-. by left.
    + apply bind_Ok_inv in Hstep as (b & _ & [= _ <-]).
      right. by exists category.
  - injection Hstep as <-. by left.
  - apply bind_Ok_inv in Hstep as ([w1 d] & Hstep & [= <-]).
    unfold RingBuffers_Resize in Hstep. case_decide.
    + injection Hstep as <- _. by left.
    + apply bind_Ok_inv in Hstep as ([m d'] & _ & [= <- _]). by left.
  - apply bind_Ok_inv in Hstep as ([w1 r] & Hstep & [= <-]).
    apply bind_Ok_inv in Hstep as (b & _ & Hstep).
    apply bind_Ok_inv in Hstep as ([b' r'] & _ & [= <- _]). by left.
  - apply bind_Ok_inv in Hstep as ([w1 r] & Hstep & [= <-]).
    apply bind_Ok_inv in Hstep as (b & _ & Hstep).
    apply bind_Ok_inv in Hstep as ([b' r'] & _ & [= <- _]). by left.
  - apply bind_Ok_inv in Hstep as (? & _ & [= <-]). by left.
  - apply bind_Ok_inv in Hstep as (? & _ & [= <-]). by left.
  - apply bind_Ok_inv in Hstep as (? & _ & [= <-]). by left.
Qed.

Lemma step_handles_distinct (o : op T) w w' :
  winv w → handles_distinct w → step zero o w = Ok w' → handles_distinct w'.
Proof.
  intros (_ & _ & Hbufs) Hdistinct Hstep. unfold handles_distinct.
  destruct (step_keeps_rbs_or_extends o w w' Hstep)
    as [->|(category & Hnone & ->)]; [done|].
  assert (∀ c, bufs (rbs w) !! c ≠ Some (length (mem w))) as Hfresh.
  { intros c Hc. destruct (Hbufs c _ Hc) as (b & Hb & _).
    apply lookup_lt_Some in Hb. lia. }
  intros c1 c2 rb H1 H2.
  destruct (decide (c1 = category)) as [->|Hne1];
    destruct (decide (c2 = category)) as [->|Hne2]; [done | | |].
  - rewrite lookup_insert_eq in H1. rewrite lookup_insert_ne in H2 by done.
    injection H1 as <-. by destruct (Hfresh c2).
  - rewrite lookup_insert_eq in H2. rewrite lookup_insert_ne in H1 by done.
    injection H2 as <-. by destruct (Hfresh c1).
  - rewrite lookup_insert_ne in H1, H2 by done. by eapply Hdistinct.
Qed.

Lemma steps_handles_distinct (os : list (op T)) w w' :
  winv w → handles_distinct w → steps zero os w = Ok w' → handles_distinct w'.
Proof.
  revert w. induction os as [|o os IH]; intros w Hinv Hdistinct Hsteps.
  - by injection Hsteps as <-.
  - cbn [steps] in Hsteps.
    apply bind_Ok_inv in Hsteps as (w1 & Hstep & Hsteps).
    destruct (step_winv o w w1 Hinv Hstep) as (Hinv1 & _).
    apply (IH w1); [done | | done].
    by apply (step_handles_distinct o w w1).
Qed.

(** In every state the program reaches, [RingBuffers.Resize] gives the same
    result for every order of its range over the map. *)
Lemma reachable_Resize_any_order (s sz' : Z) (os : list (op T)) w
    (entries : list (string * ptr)) :
  steps zero os (NewWorld s) = Ok w → 0 < sz' →
  entries ≡ₚ map_to_list (bufs (rbs w)) →
  Resize_each zero sz' entries (mem w) ∅
  = Resize_each zero sz' (map_to_list (bufs (rbs w))) (mem w) ∅.
Proof.
  intros Hsteps Hsz' Hperm.
  destruct (steps_winv os _ _ (NewWorld_winv s) Hsteps) as (Hinv & _).
  apply RingBuffers_Resize_any_order; [done | | done | done].
  apply (steps_handles_distinct os (NewWorld s) w);
    [apply NewWorld_winv | | done].
  intros c1 c2 rb H1. cbn in H1. by rewrite lookup_empty in H1.
Qed.

(** Every state a history of one buffer reaches is well formed. *)
Lemma reachable_wf (n : Z) (cs : list (call T)) b :
  (NewRingBuffer zero n ≫= do_calls zero cs) = Ok b → wf b.
Proof.
  intros Hb. apply bind_Ok_inv in Hb as (b0 & Hb0 & Hcs).
  destruct (decide (0 ≤ n)) as [Hn|Hn].
  - destruct (NewRingBuffer_spec zero n Hn) as (b1 & Hb1 & Hwf1 & _).
    assert (b1 = b0) as -> by congruence.
    destruct (do_calls_wf zero cs b0 Hwf1) as (b2 & Hb2 & Hwf2). congruence.
  - unfold NewRingBuffer in Hb0. by rewrite make_negative in Hb0 by lia.
Qed.

End RegistryFacts.

(** ** One buffer: the specification's properties *)

Section BufferClaims.

Context {T : Type} (zero : T).
Implicit Types (rb : RingBuffer T) (v : T) (vals : list T).

(** C1. For every capacity [C > 0] and every sequence of [N] values added to
    a buffer made by [NewRingBuffer(C)], a walk yields exactly [min(N, C)]
    values: the last [min(N, C)] values added, newest first. *)
Theorem C1_walk_yields_recent_values (C : Z) vals :
  0 < C →
  ∃ rb have,
    (NewRingBuffer zero C ≫= Add_all zero vals) = Ok rb ∧
    walked rb = Ok have ∧
    length have = Nat.min (length vals) (Z.to_nat C) ∧
    have = reverse (drop (length vals - Nat.min (length vals) (Z.to_nat C)) vals).
Proof.
  intros HC.
  destruct (NewRingBuffer_spec zero C) as (rb0 & -> & Hwf0 & Hcap0 & _ & _ & Hview0);
    [lia|].
  rewrite bind_Ok.
  destruct (Add_all_spec zero vals rb0 Hwf0) as (rb & -> & Hwf & Hcap & Hview);
    [lia|].
  exists rb, (view zero rb). split; [done|].
  split; [by apply walked_view|].
  rewrite Hview, Hview0, Hcap0, app_nil_r.
  split.
  - rewrite length_take, length_reverse. lia.
  - rewrite take_reverse. do 2 f_equal. lia.
Qed.

(** C2. For a buffer whose walk yields [v1 (newest) ... vk (oldest)]:
    [Resize(m)] with [m >= k] leaves the walk unchanged and drops nothing;
    [Resize(m)] with [0 < m < k] leaves exactly [v1 ... vm] and returns
    exactly [v(m+1) ... vk], newest first; in both cases the count becomes
    [min(k, m)] and the write cursor [min(k, m) mod m]. *)
Theorem C2_resize_keeps_order (m : Z) rb vals :
  wf rb → walked rb = Ok vals →
  Z.of_nat (length vals) ≤ m ∨ 0 < m < Z.of_nat (length vals) →
  ∃ rb' dropped,
    Resize zero m rb = Ok (rb', dropped) ∧
    (Z.of_nat (length vals) ≤ m → walked rb' = Ok vals ∧ dropped = []) ∧
    (0 < m < Z.of_nat (length vals) →
       walked rb' = Ok (take (Z.to_nat m) vals) ∧
       dropped = drop (Z.to_nat m) vals) ∧
    len rb' = Z.min (Z.of_nat (length vals)) m ∧
    cur rb' = Z.min (Z.of_nat (length vals)) m `mod` m.
Proof.
  intros Hwf Hwalk Hm.
  rewrite walked_view with (zero := zero) in Hwalk by done.
  injection Hwalk as <-.
  pose proof Hwf as (Hlen & Hcur0 & Hcur & Hpart).
  rewrite length_view. rewrite length_view in Hm.
  destruct (decide (0 < m)) as [Hpos|Hnonpos].
  - destruct (Resize_spec zero m rb Hwf Hpos)
      as (rb' & -> & Hwf' & Hcap' & Hlen' & Hcur' & Hview').
    exists rb', (drop (Z.to_nat m) (view zero rb)).
    split; [done|]. rewrite (walked_view zero rb' Hwf'), Hview'.
    split; [|split; [|split]].
    + intros Hge. rewrite take_ge, drop_ge by (rewrite length_view; lia). done.
    + done.
    + lia.
    + rewrite Hcur'. case_decide.
      * rewrite Z.mod_small by lia. lia.
      * replace (Z.min _ m) with m by lia. by rewrite Z_mod_same_full.
  - exists rb, []. rewrite Resize_ignored by lia.
    split; [done|]. split; [|split; [|split]].
    + intros _. by rewrite (walked_view zero rb Hwf).
    + lia.
    + lia.
    + replace m with 0 by lia. rewrite Z.mod_0_r. lia.
Qed.

(** C3. On a buffer with capacity > 0, [Add] on a full buffer returns the
    value that was oldest just before the call, and [true]; [Add] on a
    buffer that is not full returns the zero value and [false]. *)
Theorem C3_add_returns_evicted v rb vals :
  wf rb → 0 < slen (buf rb) → walked rb = Ok vals →
  ∃ rb' dropped ok,
    Add zero v rb = Ok (rb', (dropped, ok)) ∧
    (len rb = slen (buf rb) → last vals = Some dropped ∧ ok = true) ∧
    (len rb < slen (buf rb) → dropped = zero ∧ ok = false).
Proof.
  intros Hwf Hcap Hwalk.
  rewrite walked_view with (zero := zero) in Hwalk by done.
  injection Hwalk as <-.
  destruct (Add_spec zero v rb Hwf Hcap) as (rb' & HAdd & _).
  unfold Add_returns in HAdd.
  destruct (decide (len rb = slen (buf rb))) as [Hfull|Hnot].
  - exists rb', (default zero (last (view zero rb))), true.
    split; [done|]. split; [|lia]. intros _. split; [|done].
    destruct (last (view zero rb)) as [d|] eqn:Hlast; [done|].
    apply last_None in Hlast.
    pose proof (length_view zero rb) as Hl. rewrite Hlast in Hl.
    cbn in Hl. lia.
  - exists rb', zero, false. split; [done|]. split; [lia | done].
Qed.

(** C6. [Overview] returns as newest and oldest the first and the last value
    a full walk yields, and as count the number of values the walk yields;
    on an empty buffer it returns zero values and count 0. *)
Theorem C6_overview_matches_walk rb :
  wf rb →
  ∃ newest oldest count have,
    Overview zero rb = Ok (newest, oldest, count) ∧
    walked rb = Ok have ∧
    count = Z.of_nat (length have) ∧
    (have ≠ [] → head have = Some newest ∧ last have = Some oldest) ∧
    (len rb = 0 → have = [] ∧ newest = zero ∧ oldest = zero ∧ count = 0).
Proof.
  intros Hwf.
  exists (default zero (head (view zero rb))),
         (default zero (last (view zero rb))),
         (Z.of_nat (length (view zero rb))), (view zero rb).
  split; [by apply Overview_spec|]. split; [by apply walked_view|].
  split; [done|]. split.
  - intros Hne.
    destruct (head_is_Some (view zero rb)) as [_ [newest ->]]; [done|].
    destruct (last_is_Some (view zero rb)) as [_ [oldest ->]]; [done|].
    done.
  - intros Hempty. by rewrite view_empty by lia.
Qed.

(** C8. A buffer constructed with capacity 0: every [Add] leaves it as it is
    and returns the zero value and [false], so after any sequence of [Add]
    calls its count is 0 and [Overview] returns zero values and count 0. *)
Theorem C8_capacity_zero_is_inert vals v :
  ∃ rb0,
    NewRingBuffer zero 0 = Ok rb0 ∧
    Add_all zero vals rb0 = Ok rb0 ∧
    Add zero v rb0 = Ok (rb0, (zero, false)) ∧
    len rb0 = 0 ∧
    Overview zero rb0 = Ok (zero, zero, 0).
Proof.
  exists {| buf := []; cur := 0; len := 0 |}.
  split; [done|]. split; [|by repeat split].
  induction vals as [|v' vals IH]; [done|].
  cbn [Add_all]. by rewrite Add_no_storage.
Qed.

(** C9. In every state that [NewRingBuffer], [Add] and [Resize] produce, a
    write cursor of 0 on a buffer with capacity > 0 means the count is 0 or
    the capacity.  That is what makes the first wrap of the read cursor in
    [Resize], which adds the count and not the capacity, land on the newest
    value: on a non-empty buffer with its cursor in range, it does so exactly
    when a cursor of 0 comes with a full buffer. *)
Theorem C9_cursor_zero_means_empty_or_full (sz : Z) (cs : list (call T)) :
  0 ≤ sz →
  ∃ rb,
    (NewRingBuffer zero sz ≫= do_calls zero cs) = Ok rb ∧
    (cur rb = 0 → 0 < slen (buf rb) → len rb = 0 ∨ len rb = slen (buf rb)) ∧
    (0 < len rb → Resize_rdcur rb = slot rb 0) ∧
    (∀ b : RingBuffer T,
       0 < len b ≤ slen (buf b) → 0 ≤ cur b < slen (buf b) →
       Resize_rdcur b = slot b 0 ↔ (cur b = 0 → len b = slen (buf b))).
Proof.
  intros Hsz.
  destruct (NewRingBuffer_spec zero sz Hsz) as (rb0 & -> & Hwf0 & _).
  rewrite bind_Ok.
  destruct (do_calls_wf zero cs rb0 Hwf0) as (rb & -> & Hwf).
  exists rb. split; [done|].
  pose proof Hwf as (Hlen & Hcur0 & Hcur & Hpart).
  split; [lia|]. split; [by apply Resize_rdcur_slot|].
  intros b Hb Hc. unfold Resize_rdcur, slot.
  repeat case_decide; lia.
Qed.

(** C10. [Take(n)] with [n < 0] panics where it allocates the destination
    slice; with [n >= 0] it does not panic and returns a slice of length
    between 0 and [n], and no error. *)
Theorem C10_take_needs_nonnegative (n : Z) rb :
  (n < 0 → Take zero n rb = Panic makeslice_len_out_of_range) ∧
  (wf rb → 0 ≤ n → ∃ s, Take zero n rb = Ok (s, None) ∧ 0 ≤ slen s ≤ n).
Proof.
  split.
  - apply Take_negative.
  - intros Hwf Hn. exists (take (Z.to_nat n) (view zero rb)).
    split; [by apply Take_spec|].
    unfold slen. rewrite length_take. lia.
Qed.

End BufferClaims.

(** ** The set of ring buffers: the specification's properties *)

Section RegistryClaims.

Context {T : Type} (zero : T).
Implicit Types (w : world T) (b : RingBuffer T) (category : string).

(** C4, as amended.  For every [sz < 1], [NewRingBuffers(sz)] has default
    size 1, and every buffer [GetOrCreate] creates afterwards, as long as no
    [Resize] of the set to a positive size has changed that default, has
    capacity 1. *)
Theorem C4_default_size_clamped_to_one (s : Z) (os : list (op T)) w category :
  s < 1 →
  forallb keeps_default os = true →
  steps zero os (NewWorld s) = Ok w →
  bufs (rbs w) !! category = None →
  sz (NewRingBuffers s) = 1 ∧
  ∃ rb w' b,
    GetOrCreate zero category w = Ok (rb, w') ∧
    mem w' !! rb = Some b ∧
    b = {| buf := [zero]; cur := 0; len := 0 |} ∧
    slen (buf b) = 1.
Proof.
  intros Hs Hkeep Hsteps Hnew.
  assert (sz (NewRingBuffers s) = 1) as Hone by (cbn; lia).
  split; [done|].
  pose proof (steps_keep_default zero os _ _ Hkeep Hsteps) as Hsz.
  change (sz (rbs (NewWorld s))) with (sz (NewRingBuffers s)) in Hsz.
  rewrite Hone in Hsz.
  rewrite GetOrCreate_absent by (done || lia). rewrite Hsz.
  eexists _, _, _. split; [reflexivity|]. cbn [mem].
  split; [by apply list_lookup_middle|]. done.
Qed.

(** C5. For every [x <= 0], [Resize(x)] on a buffer, called directly or
    through a handle, and [Resize(x)] on the set return without panicking,
    drop nothing (the set returns a nil map) and leave the whole state as it
    was. *)
Theorem C5_resize_nonpositive_is_noop (x : Z) b w :
  x ≤ 0 →
  Resize zero x b = Ok (b, []) ∧
  RingBuffers_Resize zero x w = Ok (w, None) ∧
  (∀ rb : ptr, is_Some (mem w !! rb) → Resize_at zero rb x w = Ok (w, [])).
Proof.
  intros Hx. split; [by apply Resize_ignored|].
  split; [by apply RingBuffers_Resize_ignored|].
  intros rb [b0 Hb0]. unfold Resize_at.
  rewrite (deref_Ok w rb b0 Hb0), bind_Ok, Resize_ignored, bind_Ok by done.
  cbn beta iota. rewrite list_insert_id by done. by destruct w.
Qed.

(** C7. In any state the program reaches, two calls of [GetOrCreate] with
    one category return the same handle, a value added through it is the
    first a walk through it yields, and after any further calls, the set's
    [Resize] included, [GetOrCreate] still returns that handle and the
    buffer is still allocated. *)
Theorem C7_one_buffer_per_category (s : Z) (os : list (op T)) w category (v : T) :
  steps zero os (NewWorld s) = Ok w →
  ∃ rb w1,
    GetOrCreate zero category w = Ok (rb, w1) ∧
    GetOrCreate zero category w1 = Ok (rb, w1) ∧
    (∃ w2 r have,
        Add_at zero rb v w1 = Ok (w2, r) ∧
        GetOrCreate zero category w2 = Ok (rb, w2) ∧
        walked_at rb w2 = Ok have ∧
        head have = Some v) ∧
    (∀ (os' : list (op T)) w',
        steps zero os' w1 = Ok w' →
        GetOrCreate zero category w' = Ok (rb, w') ∧ is_Some (mem w' !! rb)).
Proof.
  intros Hsteps.
  destruct (steps_winv zero os _ _ (NewWorld_winv s) Hsteps) as (Hinv & _ & _).
  destruct (GetOrCreate_spec zero category w Hinv)
    as (rb & w1 & HG & Hinv1 & _ & _ & Hrb & _).
  exists rb, w1. split; [done|].
  split; [by apply GetOrCreate_present|]. split.
  - pose proof Hinv1 as (_ & Hwf1 & Hbufs1).
    destruct (Hbufs1 category rb Hrb) as (b & Hb & Hcap).
    assert (wf b) as Hwfb by by eapply Forall_lookup_1.
    destruct (Add_spec zero v b Hwfb Hcap) as (b' & HA & Hwf' & Hcap' & Hview).
    unfold Add_at. rewrite (deref_Ok w1 rb b Hb), bind_Ok, HA, bind_Ok.
    cbn beta iota.
    eexists _, _, (view zero b'). split; [reflexivity|].
    split; [by apply GetOrCreate_present|]. split.
    + unfold walked_at, deref. cbn [mem].
      rewrite list_lookup_insert_eq by by eapply lookup_lt_Some.
      rewrite bind_Ok. by apply walked_view.
    + rewrite Hview.
      replace (Z.to_nat (slen (buf b))) with (S (Z.to_nat (slen (buf b) - 1)))
        by lia.
      done.
  - intros os' w' Hsteps'.
    destruct (steps_winv zero os' _ _ Hinv1 Hsteps') as (Hinv' & _ & Hkeep).
    pose proof (Hkeep category rb Hrb) as Hrb'.
    split; [by apply GetOrCreate_present|].
    destruct Hinv' as (_ & _ & Hbufs').
    destruct (Hbufs' category rb Hrb') as (b' & Hb' & _). by exists b'.
Qed.

End RegistryClaims.

(** ** One buffer: further properties of the code *)

Section BufferLaws.

Context {T : Type} (zero : T).
Implicit Types (rb : RingBuffer T) (v : T) (vals : list T).

Lemma walked_inv rb vals : wf rb → walked rb = Ok vals → vals = view zero rb.
Proof.
  intros Hwf Hwalk. rewrite (walked_view zero rb Hwf) in Hwalk. congruence.
Qed.

Lemma visit_app {S : Type} (fn : visitor S) (pre post : list T) (s s' : S) :
  visit fn pre s = Ok (s', None) → visit fn (pre ++ post) s = visit fn post s'.
Proof.
  revert s. induction pre as [|v pre IH]; intros s Hpre; cbn [app visit] in *.
  - change (Ok (s, @None error) = Ok (s', None)) in Hpre. congruence.
  - destruct (fn v s) as [[s1 [e|]]|p]; [discriminate Hpre | | discriminate Hpre].
    rewrite bind_Ok in Hpre |- *. by apply IH.
Qed.

(** X1. [Walk] calls the visitor on the buffer's values, newest first, each
    call seeing what the previous ones left; at the first call that returns
    an error it stops, returns that error, and visits no older value. *)
Theorem X1_walk_stops_at_first_error {S : Type} (fn : visitor S) rb vals (s : S) :
  wf rb → walked rb = Ok vals →
  Walk fn rb s = visit fn vals s ∧
  ∀ pre v post s' s'' e,
    vals = pre ++ v :: post →
    visit fn pre s = Ok (s', None) →
    fn v s' = Ok (s'', Some e) →
    Walk fn rb s = Ok (s'', Some e).
Proof.
  intros Hwf Hwalk. apply walked_inv in Hwalk as ->; [|done].
  split; [by apply Walk_view|].
  intros pre v post s' s'' e Hvals Hpre Hv.
  rewrite (Walk_view zero) by done.
  rewrite Hvals, (visit_app fn pre _ s s' Hpre). cbn [visit].
  by rewrite Hv.
Qed.

Lemma visit_Copy_fn_full vals (dst : list T) (k : nat) :
  (k ≤ length dst)%nat →
  ∃ e,
    visit Copy_fn vals (dst, Z.of_nat k)
    = Ok ((take k dst ++ take (length dst - k) vals
             ++ drop (Nat.min (length dst) (k + length vals)) dst,
           Z.of_nat (Nat.min (length dst) (k + length vals))), e).
Proof.
  revert dst k. induction vals as [|v vals IH]; intros dst k Hk.
  - exists None. cbn [visit length].
    replace (Nat.min (length dst) (k + 0)) with k by lia.
    by rewrite take_nil, app_nil_l, take_drop.
  - cbn [visit]. rewrite Copy_fn_unfold.
    destruct (decide (Z.of_nat k >= slen dst)) as [Hfull|Hroom].
    + exists (Some io_EOF). rewrite bind_Ok. unfold slen in Hfull.
      replace (Nat.min (length dst) (k + length (v :: vals))) with k by lia.
      replace (length dst - k)%nat with 0%nat by lia.
      by rewrite take_0, app_nil_l, take_drop.
    + unfold slen in Hroom.
      rewrite store_Ok, !bind_Ok by (unfold slen; lia). cbn beta iota.
      rewrite Nat2Z.id.
      replace (Z.of_nat k + 1) with (Z.of_nat (S k)) by lia.
      destruct (IH (<[k := v]> dst) (S k)) as (e & ->).
      { rewrite length_insert. lia. }
      rewrite length_insert. exists e. cbn [length].
      replace (k + S (length vals))%nat with (S k + length vals)%nat by lia.
      do 3 f_equal.
      rewrite (take_S_r (<[k := v]> dst) k v)
        by (apply list_lookup_insert_eq; lia).
      rewrite take_insert_ge by lia.
      rewrite drop_insert_lt by lia.
      replace (length dst - k)%nat with (S (length dst - S k)) by lia.
      cbn [take]. by rewrite <- app_assoc.
Qed.

(** X2. [Copy(dst)] never panics and never returns an error.  It returns
    [n = min(len(dst), count)], writes the [n] newest values, newest first,
    to the first [n] slots of [dst], and leaves the rest of [dst] as it
    was. *)
Theorem X2_copy_fills_a_prefix (dst : list T) rb vals :
  wf rb → walked rb = Ok vals →
  Copy dst rb
  = Ok (take (Nat.min (length dst) (length vals)) vals
          ++ drop (Nat.min (length dst) (length vals)) dst,
        (Z.of_nat (Nat.min (length dst) (length vals)), None)).
Proof.
  intros Hwf Hwalk. apply walked_inv in Hwalk as ->; [|done].
  unfold Copy. rewrite (Walk_view zero) by done.
  destruct (visit_Copy_fn_full (view zero rb) dst 0) as (e & Hvisit); [lia|].
  change (Z.of_nat 0) with 0 in Hvisit. rewrite Hvisit, bind_Ok.
  cbn beta iota. rewrite take_0, app_nil_l, Nat.sub_0_r, Nat.add_0_l.
  do 3 f_equal.
  rewrite <- take_take.
  by rewrite (take_ge _ (length (view zero rb))) by lia.
Qed.

(** X3. [Take(n)] with [n >= 0] returns exactly the [min(n, count)] newest
    values, newest first, and a nil error. *)
Theorem X3_take_returns_newest (n : Z) rb vals :
  wf rb → walked rb = Ok vals → 0 ≤ n →
  Take zero n rb = Ok (take (Z.to_nat n) vals, None).
Proof.
  intros Hwf Hwalk Hn. apply walked_inv in Hwalk as ->; [|done].
  by apply Take_spec.
Qed.

Lemma Add_len v rb rb' (r : T * bool) :
  wf rb → 0 < slen (buf rb) → Add zero v rb = Ok (rb', r) →
  len rb' = Z.min (len rb + 1) (slen (buf rb)).
Proof.
  intros Hwf Hcap HAdd.
  destruct (Add_spec zero v rb Hwf Hcap) as (rb1 & HAdd1 & Hwf1 & _ & Hview).
  assert (rb1 = rb') as -> by congruence.
  apply (f_equal length) in Hview.
  rewrite length_take, length_view in Hview. cbn [length] in Hview.
  rewrite length_view in Hview.
  destruct Hwf as ((? & ?) & _), Hwf1 as ((? & ?) & _). lia.
Qed.

(** X4. On any buffer with capacity > 0, [Add(v)] puts [v] in front of the
    values a walk yields and cuts the list at the capacity; the capacity
    stays the same and the count grows by one up to the capacity. *)
Theorem X4_add_prepends_and_cuts v rb vals :
  wf rb → 0 < slen (buf rb) → walked rb = Ok vals →
  ∃ rb' r,
    Add zero v rb = Ok (rb', r) ∧
    walked rb' = Ok (take (Z.to_nat (slen (buf rb))) (v :: vals)) ∧
    slen (buf rb') = slen (buf rb) ∧
    len rb' = Z.min (len rb + 1) (slen (buf rb)).
Proof.
  intros Hwf Hcap Hwalk. apply walked_inv in Hwalk as ->; [|done].
  destruct (Add_spec zero v rb Hwf Hcap) as (rb' & HAdd & Hwf' & Hcap' & Hview).
  eexists rb', _. split; [exact HAdd|].
  split; [by rewrite (walked_view zero rb' Hwf'), Hview|].
  split; [done|]. by eapply Add_len.
Qed.

(** X5. On any buffer with capacity > 0, [Overview] right after [Add(v)]
    reports [v] as the newest value and the grown count. *)
Theorem X5_overview_after_add v rb :
  wf rb → 0 < slen (buf rb) →
  ∃ rb' r oldest,
    Add zero v rb = Ok (rb', r) ∧
    Overview zero rb' = Ok (v, oldest, Z.min (len rb + 1) (slen (buf rb))).
Proof.
  intros Hwf Hcap.
  destruct (Add_spec zero v rb Hwf Hcap) as (rb' & HAdd & Hwf' & Hcap' & Hview).
  eexists rb', _, _. split; [exact HAdd|].
  rewrite Overview_spec by done.
  rewrite length_view, (Add_len v rb rb' _ Hwf Hcap HAdd).
  rewrite Hview.
  replace (Z.to_nat (slen (buf rb))) with (S (Z.to_nat (slen (buf rb) - 1)))
    by lia.
  cbn [take head default]. do 3 f_equal.
  destruct Hwf as ((? & ?) & _). lia.
Qed.

(** X6. Two calls of [Resize] in a row, both to positive sizes, keep what
    one call to the smaller size keeps, and the values they return, the
    second call's before the first call's, are what that one call returns;
    the capacity is the second size. *)
Theorem X6_resize_twice (m1 m2 : Z) rb vals :
  wf rb → walked rb = Ok vals → 0 < m1 → 0 < m2 →
  ∃ rb1 dropped1 rb2 dropped2,
    Resize zero m1 rb = Ok (rb1, dropped1) ∧
    Resize zero m2 rb1 = Ok (rb2, dropped2) ∧
    walked rb2 = Ok (take (Z.to_nat (Z.min m1 m2)) vals) ∧
    dropped2 ++ dropped1 = drop (Z.to_nat (Z.min m1 m2)) vals ∧
    slen (buf rb2) = m2.
Proof.
  intros Hwf Hwalk Hm1 Hm2. apply walked_inv in Hwalk as ->; [|done].
  destruct (Resize_spec zero m1 rb Hwf Hm1)
    as (rb1 & HR1 & Hwf1 & _ & _ & _ & Hview1).
  destruct (Resize_spec zero m2 rb1 Hwf1 Hm2)
    as (rb2 & HR2 & Hwf2 & Hcap2 & _ & _ & Hview2).
  eexists rb1, _, rb2, _. split; [exact HR1|]. split; [exact HR2|].
  rewrite (walked_view zero rb2 Hwf2), Hview2, Hview1, take_take.
  split; [do 2 f_equal; lia|]. split; [|done].
  destruct (decide (m2 ≤ m1)) as [Hle|Hgt].
  - replace (Z.to_nat (Z.min m1 m2)) with (Z.to_nat m2) by lia.
    transitivity (drop (Z.to_nat m2)
                    (take (Z.to_nat m1) (view zero rb)
                     ++ drop (Z.to_nat m1) (view zero rb)));
      [|by rewrite take_drop].
    rewrite drop_app, length_take. f_equal.
    destruct (decide (Z.to_nat m1 ≤ length (view zero rb))%nat) as [Hlong|Hshort].
    + replace (Z.to_nat m2 - _)%nat with 0%nat by lia. done.
    + rewrite !(drop_ge (view zero rb) (Z.to_nat m1)) by lia. by rewrite drop_nil.
  - replace (Z.to_nat (Z.min m1 m2)) with (Z.to_nat m1) by lia.
    rewrite drop_ge; [done|]. rewrite length_take. lia.
Qed.

Lemma do_call_model (c : call T) rb :
  wf rb →
  ∃ rb', do_call zero c rb = Ok rb' ∧ wf rb' ∧
    (slen (buf rb'), view zero rb') = model_call c (slen (buf rb), view zero rb).
Proof.
  intros Hwf. destruct c as [v|m]; cbn [do_call model_call fst snd].
  - destruct (decide (0 < slen (buf rb))) as [Hcap|Hcap].
    + destruct (Add_spec zero v rb Hwf Hcap) as (rb' & -> & Hwf' & Hcap' & Hview).
      exists rb'. rewrite bind_Ok. cbn beta iota.
      split; [done|]. split; [done|]. by rewrite Hcap', Hview.
    + rewrite Add_no_storage, bind_Ok by lia. exists rb.
      split; [done|]. split; [done|].
      replace (Z.to_nat (slen (buf rb))) with 0%nat by (unfold slen in *; lia).
      rewrite take_0. f_equal. apply view_empty.
      destruct Hwf as ((? & ?) & _). lia.
  - destruct (decide (m ≤ 0)) as [Hm|Hm].
    + rewrite Resize_ignored, bind_Ok by done. by exists rb.
    + destruct (Resize_spec zero m rb Hwf) as (rb' & -> & Hwf' & Hcap' & _ & _ & Hview);
        [lia|].
      exists rb'. rewrite bind_Ok. cbn beta iota.
      split; [done|]. split; [done|]. by rewrite Hcap', Hview.
Qed.

(** X7. A buffer refines a bounded list.  After [NewRingBuffer(sz)],
    [sz >= 0], and any sequence of [Add] and [Resize] calls, no call has
    panicked, the capacity is [sz] or the last positive size given to
    [Resize], the values a walk yields are those of the list model, and the
    count is their number, at most the capacity. *)
Theorem X7_buffer_refines_list_model (n : Z) (cs : list (call T)) :
  0 ≤ n →
  ∃ rb,
    (NewRingBuffer zero n ≫= do_calls zero cs) = Ok rb ∧
    slen (buf rb) = (model_calls cs (n, [])).1 ∧
    walked rb = Ok (model_calls cs (n, [])).2 ∧
    len rb = Z.of_nat (length (model_calls cs (n, [])).2) ∧
    0 ≤ len rb ≤ slen (buf rb).
Proof.
  intros Hn.
  destruct (NewRingBuffer_spec zero n Hn) as (rb0 & -> & Hwf0 & Hcap0 & _ & _ & Hview0).
  rewrite bind_Ok. rewrite <- Hcap0, <- Hview0. clear Hcap0 Hview0 Hn.
  revert rb0 Hwf0. induction cs as [|c cs IH]; intros rb Hwf.
  - exists rb. cbn. split; [done|]. split; [done|].
    split; [by apply walked_view|].
    rewrite length_view. destruct Hwf as ((? & ?) & _). lia.
  - destruct (do_call_model c rb Hwf) as (rb1 & Hc & Hwf1 & Hmodel).
    cbn [do_calls model_calls foldl]. rewrite Hc, bind_Ok, <- Hmodel.
    apply (IH rb1 Hwf1).
Qed.

Lemma Add_evicting_spec vals rb :
  wf rb → 0 < slen (buf rb) →
  ∃ rb',
    Add_evicting zero vals rb
    = Ok (rb', take (length (view zero rb) + length vals - Z.to_nat (slen (buf rb)))
                 (reverse (view zero rb) ++ vals)) ∧
    wf rb' ∧
    view zero rb' = take (Z.to_nat (slen (buf rb))) (reverse vals ++ view zero rb).
Proof.
  revert rb. induction vals as [|v vals IH]; intros rb Hwf Hcap.
  - exists rb. cbn [Add_evicting length].
    pose proof (length_view zero rb) as Hl. pose proof Hwf as ((? & ?) & _).
    replace (length (view zero rb) + 0 - Z.to_nat (slen (buf rb)))%nat
      with 0%nat by lia.
    rewrite take_0. split; [done|]. split; [done|].
    rewrite reverse_nil, app_nil_l, take_ge; [done | lia].
  - cbn [Add_evicting].
    destruct (Add_spec zero v rb Hwf Hcap) as (rb1 & -> & Hwf1 & Hcap1 & Hview1).
    rewrite bind_Ok. unfold Add_returns. cbn beta iota.
    destruct (IH rb1 Hwf1) as (rb' & -> & Hwf' & Hview'); [lia|].
    exists rb'. rewrite Hcap1 in *.
    assert (view zero rb'
            = take (Z.to_nat (slen (buf rb))) (reverse (v :: vals) ++ view zero rb))
      as Hkeep.
    { rewrite Hview', Hview1, reverse_cons, <- app_assoc. cbn [app].
      set (c := Z.to_nat (slen (buf rb))).
      rewrite !take_app, take_take.
      replace (Nat.min (c - length (reverse vals)) c)
        with (c - length (reverse vals))%nat by lia.
      done. }
    pose proof (length_view zero rb) as Hl. pose proof Hwf as ((? & ?) & _).
    destruct (decide (len rb = slen (buf rb))) as [Hfull|Hnot];
      cbn beta iota; rewrite bind_Ok; cbn beta iota;
      (split; [|by split]); do 2 f_equal.
    + set (c := Z.to_nat (slen (buf rb))) in *.
      assert (length (view zero rb) = c) as Hlc by lia.
      rewrite Hview1.
      destruct (view zero rb) as [|x l _] using rev_ind; [cbn in Hlc; lia|].
      rewrite last_snoc. cbn [default].
      rewrite length_app in Hlc |- *. cbn [length] in Hlc |- *.
      rewrite reverse_app. cbn [reverse app]. rewrite reverse_singleton. cbn [app].
      replace c with (S (length l)) by lia.
      cbn [take]. rewrite take_app_length. cbn [length].
      replace (length l + 1 + S (length vals) - S (length l))%nat
        with (S (length vals)) by lia.
      replace (S (length l) + length vals - S (length l))%nat
        with (length vals) by lia.
      cbn [take]. f_equal. by rewrite reverse_cons, <- app_assoc.
    + rewrite Hview1.
      rewrite (take_ge (v :: view zero rb)) by (cbn [length]; lia).
      cbn [length]. rewrite reverse_cons, <- app_assoc. cbn [app].
      f_equal. lia.
Qed.

(** X16. [Add] evicts in insertion order.  After [NewRingBuffer(C)],
    [C > 0], the values that a sequence of [N] calls of [Add] returns with
    [true] are, in the order of the calls, exactly the first [N - C] values
    added (none when [N <= C]). *)
Theorem X16_add_evicts_in_insertion_order (C : Z) vals :
  0 < C →
  ∃ rb,
    (NewRingBuffer zero C ≫= Add_evicting zero vals)
    = Ok (rb, take (length vals - Z.to_nat C) vals).
Proof.
  intros HC.
  destruct (NewRingBuffer_spec zero C) as (rb0 & -> & Hwf0 & Hcap0 & _ & _ & Hview0);
    [lia|].
  rewrite bind_Ok.
  destruct (Add_evicting_spec vals rb0 Hwf0) as (rb & -> & _); [lia|].
  exists rb. by rewrite Hview0, Hcap0.
Qed.

End BufferLaws.

(** ** The set of ring buffers: further properties of the code *)

Section RegistryLaws.

Context {T : Type} (zero : T).
Implicit Types (w : world T) (m : list (RingBuffer T)) (b : RingBuffer T).
Implicit Types (rb : ptr) (category : string).

Lemma reachable_winv (s : Z) (os : list (op T)) w :
  steps zero os (NewWorld s) = Ok w → winv w ∧ handles_distinct w.
Proof.
  intros Hsteps.
  destruct (steps_winv zero os _ _ (NewWorld_winv s) Hsteps) as (Hinv & _).
  split; [done|].
  apply (steps_handles_distinct zero os (NewWorld s) w);
    [apply NewWorld_winv | | done].
  intros c1 c2 rb H1. cbn in H1. by rewrite lookup_empty in H1.
Qed.

Lemma walked_at_view w rb b :
  mem w !! rb = Some b → wf b → walked_at rb w = Ok (view zero b).
Proof.
  intros Hb Hwf. unfold walked_at.
  by rewrite (deref_Ok w rb b Hb), bind_Ok, (walked_view zero).
Qed.

(** What the loop of [RingBuffers.Resize] leaves, entry by entry. *)
Lemma Resize_each_lookup (sz' : Z) (entries : list (string * ptr)) m
    (dropped : gmap string (list T)) :
  0 < sz' → Forall wf m → Forall (λ e, (e.2 < length m)%nat) entries →
  NoDup entries.*1 → NoDup entries.*2 →
  ∃ m' dropped',
    Resize_each zero sz' entries m dropped = Ok (m', dropped') ∧
    length m' = length m ∧
    (∀ name rb, (name, rb) ∈ entries →
       ∃ b b', m !! rb = Some b ∧ m' !! rb = Some b' ∧ wf b' ∧
         slen (buf b') = sz' ∧
         view zero b' = take (Z.to_nat sz') (view zero b) ∧
         dropped' !! name
         = Some (default [] (dropped !! name) ++ drop (Z.to_nat sz') (view zero b))) ∧
    (∀ rb, rb ∉ entries.*2 → m' !! rb = m !! rb) ∧
    (∀ name, name ∉ entries.*1 → dropped' !! name = dropped !! name).
Proof.
  intros Hsz. revert m dropped.
  induction entries as [|[name rb] entries IH];
    intros m dropped Hwf Hvalid Hnames Hptrs.
  - exists m, dropped. split; [done|]. split; [done|].
    split; [|done]. intros ?? Hin. by apply elem_of_nil in Hin.
  - apply Forall_cons in Hvalid as [Hrb Hvalid]. cbn [snd] in Hrb.
    rewrite fmap_cons in Hnames. rewrite fmap_cons in Hptrs.
    cbn [fst snd] in Hnames, Hptrs.
    apply NoDup_cons in Hnames as [Hname Hnames].
    apply NoDup_cons in Hptrs as [Hptr Hptrs].
    destruct (lookup_lt_is_Some_2 m rb Hrb) as [b Hb].
    assert (wf b) as Hwfb by by eapply Forall_lookup_1.
    destruct (Resize_spec zero sz' b Hwfb Hsz)
      as (b' & HR & Hwf' & Hcap' & _ & _ & Hview').
    cbn [Resize_each]. rewrite Hb, bind_Ok, HR, bind_Ok. cbn beta iota zeta.
    destruct (IH (<[rb := b']> m)
                (<[name := default [] (dropped !! name)
                           ++ drop (Z.to_nat sz') (view zero b)]> dropped))
      as (m' & dropped' & -> & Hlen & Hin & Hout_m & Hout_d);
      [by apply Forall_insert | | done | done |].
    { eapply Forall_impl; [exact Hvalid|]. intros e He.
      by rewrite length_insert. }
    exists m', dropped'. split; [done|].
    split; [by rewrite Hlen, length_insert|]. split; [|split].
    + intros name0 rb0 Hin0. apply elem_of_cons in Hin0 as [[= -> ->]|Hin0].
      * exists b, b'. split; [done|]. split.
        { rewrite Hout_m by done. by apply list_lookup_insert_eq. }
        split; [done|]. split; [done|]. split; [done|].
        rewrite Hout_d by done. by rewrite lookup_insert_eq.
      * assert (rb0 ≠ rb) as Hne_rb.
        { intros ->. apply Hptr. apply list_elem_of_fmap. by exists (name0, rb). }
        assert (name0 ≠ name) as Hne_name.
        { intros ->. apply Hname. apply list_elem_of_fmap. by exists (name, rb0). }
        destruct (Hin name0 rb0 Hin0) as (b0 & b0' & Hb0 & Hb0' & ? & ? & ? & Hd0).
        rewrite list_lookup_insert_ne in Hb0 by done.
        rewrite lookup_insert_ne in Hd0 by done.
        by exists b0, b0'.
    + intros rb0 Hrb0. rewrite fmap_cons in Hrb0. cbn [snd] in Hrb0.
      apply not_elem_of_cons in Hrb0 as [Hne Hrb0].
      rewrite Hout_m by done. by rewrite list_lookup_insert_ne.
    + intros name0 Hname0. rewrite fmap_cons in Hname0. cbn [fst] in Hname0.
      apply not_elem_of_cons in Hname0 as [Hne Hname0].
      rewrite Hout_d by done. by rewrite lookup_insert_ne.
Qed.

Lemma visit_total {S : Type} (fn : visitor S) (vals : list T) (s : S) :
  (∀ v s0, ∃ r, fn v s0 = Ok r) → ∃ r, visit fn vals s = Ok r.
Proof.
  intros Hfn. revert s. induction vals as [|v vals IH]; intros s; cbn [visit].
  - by eexists.
  - destruct (Hfn v s) as ([s1 [e|]] & ->); rewrite bind_Ok; cbn beta iota.
    + by eexists.
    + apply IH.
Qed.

(** X8. In every state a program reaches from [NewRingBuffers], no function
    of the package panics when it is given the handle of an allocated buffer
    and, for [NewRingBuffer] and [Take], a length that is not negative:
    every call of a history returns, [Copy] returns for every destination,
    and [Walk] returns for every visitor that itself returns. *)
Theorem X8_reachable_states_never_panic (s : Z) (os : list (op T)) w :
  steps zero os (NewWorld s) = Ok w →
  (∀ o : op T, op_safe w o → ∃ w', step zero o w = Ok w') ∧
  (∀ (rb : ptr) b, mem w !! rb = Some b →
     (∀ dst : list T, ∃ r, Copy dst b = Ok r) ∧
     (∀ (S : Type) (fn : visitor S) (s0 : S),
        (∀ v s1, ∃ r, fn v s1 = Ok r) → ∃ r, Walk fn b s0 = Ok r)).
Proof.
  intros Hsteps. destruct (reachable_winv s os w Hsteps) as [Hinv _].
  split; [intros o Hsafe; by apply step_safe|].
  intros rb b Hb. destruct Hinv as (_ & Hwf & _).
  assert (wf b) as Hwfb by by eapply Forall_lookup_1.
  split.
  - intros dst. unfold Copy. rewrite (Walk_view zero) by done.
    destruct (visit_Copy_fn_full (view zero b) dst 0) as (e & Hvisit); [lia|].
    change (Z.of_nat 0) with 0 in Hvisit. rewrite Hvisit, bind_Ok.
    by eexists.
  - intros S fn s0 Hfn. rewrite (Walk_view zero) by done.
    by apply visit_total.
Qed.

(** X9. [GetAll] lists a category with a handle exactly when [GetOrCreate]
    for that category returns that handle and changes nothing, that is, when
    the category exists already. *)
Theorem X9_getall_agrees_with_getorcreate w category rb :
  GetAll w !! category = Some rb ↔ GetOrCreate zero category w = Ok (rb, w).
Proof.
  rewrite GetAll_bufs. split.
  - apply GetOrCreate_present.
  - unfold GetOrCreate. destruct (bufs (rbs w) !! category) as [rb0|].
    { intros HG. by injection HG as ->. }
    intros HG. apply bind_Ok_inv in HG as (b & _ & HG). exfalso.
    unfold alloc in HG. cbn in HG. injection HG as _ Hw.
    apply (f_equal (λ w0 : world T, length (mem w0))) in Hw. cbn in Hw.
    rewrite length_app in Hw. cbn in Hw. lia.
Qed.

(** X10. In a reachable state, [Resize(n)] of the set with [n > 0] sets the
    default size to [n], keeps every category and its handle, resizes every
    buffer of the set to capacity [n] keeping its [n] newest values, returns
    under each category the values that buffer dropped (newest first), has
    no entry for any other category, and leaves buffers outside the set
    alone. *)
Theorem X10_resize_all_resizes_each (s n : Z) (os : list (op T)) w :
  steps zero os (NewWorld s) = Ok w → 0 < n →
  ∃ w' dropped,
    RingBuffers_Resize zero n w = Ok (w', Some dropped) ∧
    sz (rbs w') = n ∧
    bufs (rbs w') = bufs (rbs w) ∧
    (∀ category rb, bufs (rbs w) !! category = Some rb →
       ∃ vals b',
         walked_at rb w = Ok vals ∧
         walked_at rb w' = Ok (take (Z.to_nat n) vals) ∧
         dropped !! category = Some (drop (Z.to_nat n) vals) ∧
         mem w' !! rb = Some b' ∧ slen (buf b') = n) ∧
    (∀ category, bufs (rbs w) !! category = None → dropped !! category = None) ∧
    (∀ rb, (∀ category, bufs (rbs w) !! category ≠ Some rb) →
       mem w' !! rb = mem w !! rb).
Proof.
  intros Hsteps Hn.
  destruct (reachable_winv s os w Hsteps) as [Hinv Hdistinct].
  pose proof Hinv as (Hsz & Hwf & Hbufs).
  destruct (Resize_each_lookup n (map_to_list (bufs (rbs w))) (mem w) ∅)
    as (m' & dropped & HR & Hlen & Hin & Hout_m & Hout_d); [done | done | | | |].
  { apply Forall_forall. intros [name rb] He.
    apply elem_of_map_to_list in He.
    destruct (Hbufs name rb He) as (b & Hb & _). by eapply lookup_lt_Some. }
  { apply NoDup_fst_map_to_list. }
  { by apply handles_distinct_NoDup. }
  unfold RingBuffers_Resize. rewrite decide_False by lia.
  rewrite HR, bind_Ok. cbn beta iota.
  eexists _, dropped. split; [reflexivity|]. cbn [mem rbs sz bufs].
  split; [done|]. split; [done|]. split; [|split].
  - intros category rb Hrb.
    destruct (Hin category rb) as (b & b' & Hb & Hb' & Hwf' & Hcap' & Hview' & Hd).
    { by apply elem_of_map_to_list. }
    exists (view zero b), b'.
    split; [apply walked_at_view; [done | by eapply Forall_lookup_1]|].
    split; [by rewrite (walked_at_view _ rb b'), Hview'|].
    split; [by rewrite Hd, lookup_empty|]. done.
  - intros category Hnone. rewrite Hout_d; [apply lookup_empty|].
    intros Hin'. apply list_elem_of_fmap in Hin' as ([c rb] & -> & Hin').
    apply elem_of_map_to_list in Hin'. cbn in Hnone. congruence.
  - intros rb Hnot. apply Hout_m.
    intros Hin'. apply list_elem_of_fmap in Hin' as ([c rb0] & -> & Hin').
    apply elem_of_map_to_list in Hin'. by apply (Hnot c).
Qed.

(** X11. In a reachable state, the state and the dropped values that the
    loop of [RingBuffers.Resize] produces are the same for every order in
    which it may range over the map. *)
Theorem X11_resize_all_any_map_order (s n : Z) (os : list (op T)) w
    (entries : list (string * ptr)) :
  steps zero os (NewWorld s) = Ok w → 0 < n →
  entries ≡ₚ map_to_list (bufs (rbs w)) →
  Resize_each zero n entries (mem w) ∅
  = Resize_each zero n (map_to_list (bufs (rbs w))) (mem w) ∅.
Proof.
  intros Hsteps Hn Hperm.
  destruct (reachable_winv s os w Hsteps) as [Hinv Hdistinct].
  by apply RingBuffers_Resize_any_order.
Qed.

(** X12. In a reachable state, after [Resize(n)] of the set with [n > 0],
    [GetOrCreate] for a category that does not exist yet creates an empty
    buffer of capacity [n]. *)
Theorem X12_new_buffers_follow_resized_default (s n : Z) (os : list (op T)) w
    category :
  steps zero os (NewWorld s) = Ok w → 0 < n →
  bufs (rbs w) !! category = None →
  ∃ w1 dropped rb w2,
    RingBuffers_Resize zero n w = Ok (w1, dropped) ∧
    GetOrCreate zero category w1 = Ok (rb, w2) ∧
    mem w2 !! rb
    = Some {| buf := replicate (Z.to_nat n) zero; cur := 0; len := 0 |}.
Proof.
  intros Hsteps Hn Hnone.
  destruct (reachable_winv s os w Hsteps) as [Hinv _].
  destruct (RingBuffers_Resize_spec zero n w Hinv Hn) as (m' & dropped & -> & _).
  eexists _, _, _, _. split; [reflexivity|].
  rewrite GetOrCreate_absent by (cbn; done || lia).
  split; [reflexivity|]. cbn [mem rbs sz]. by apply list_lookup_middle.
Qed.

(** X13. In a reachable state, [GetOrCreate] for a category that does not
    exist yet returns a handle no buffer had before, to an empty buffer;
    every buffer allocated before is as it was, every other category keeps
    its handle, and [GetAll] gains exactly that category. *)
Theorem X13_getorcreate_adds_one_empty_buffer (s : Z) (os : list (op T)) w
    category :
  steps zero os (NewWorld s) = Ok w →
  bufs (rbs w) !! category = None →
  ∃ rb w',
    GetOrCreate zero category w = Ok (rb, w') ∧
    mem w !! rb = None ∧
    walked_at rb w' = Ok [] ∧
    (∀ rb0, is_Some (mem w !! rb0) → mem w' !! rb0 = mem w !! rb0) ∧
    GetAll w' = <[category := rb]> (GetAll w) ∧
    sz (rbs w') = sz (rbs w).
Proof.
  intros Hsteps Hnone.
  destruct (reachable_winv s os w Hsteps) as [(Hsz & _) _].
  rewrite GetOrCreate_absent by (done || lia).
  eexists _, _. split; [reflexivity|].
  split; [by apply lookup_ge_None_2|]. split; [|split; [|split]].
  - rewrite (walked_at_view _ _ {| buf := replicate (Z.to_nat (sz (rbs w))) zero;
                                   cur := 0; len := 0 |}).
    + by rewrite view_empty.
    + cbn [mem]. by apply list_lookup_middle.
    + unfold wf; cbn [buf cur len]. rewrite slen_replicate. lia.
  - intros rb0 [b0 Hb0]. cbn [mem]. rewrite Hb0. by apply lookup_app_l_Some.
  - by rewrite !GetAll_bufs.
  - done.
Qed.

(** X14. In a reachable state, two different categories have different
    buffers: what is added to, or resized in, one of them does not change
    what a walk of the other yields. *)
Theorem X14_categories_are_independent (s : Z) (os : list (op T)) w
    (c1 c2 : string) (rb1 rb2 : ptr) (v : T) (n : Z) :
  steps zero os (NewWorld s) = Ok w →
  bufs (rbs w) !! c1 = Some rb1 → bufs (rbs w) !! c2 = Some rb2 → c1 ≠ c2 →
  rb1 ≠ rb2 ∧
  ∃ w1 r w2 dropped,
    Add_at zero rb1 v w = Ok (w1, r) ∧ walked_at rb2 w1 = walked_at rb2 w ∧
    Resize_at zero rb1 n w = Ok (w2, dropped) ∧ walked_at rb2 w2 = walked_at rb2 w.
Proof.
  intros Hsteps H1 H2 Hne.
  destruct (reachable_winv s os w Hsteps) as [Hinv Hdistinct].
  assert (rb1 ≠ rb2) as Hptr.
  { intros ->. apply Hne. by apply (Hdistinct c1 c2 rb2). }
  split; [done|].
  pose proof Hinv as (_ & Hwf & Hbufs).
  destruct (Hbufs c1 rb1 H1) as (b1 & Hb1 & _).
  assert (wf b1) as Hwf1 by by eapply Forall_lookup_1.
  destruct (Add_total zero v b1 Hwf1) as (b1' & r & HA & _).
  destruct (Resize_total zero n b1 Hwf1) as (b1'' & d & HR & _).
  unfold Add_at, Resize_at.
  rewrite (deref_Ok w rb1 b1 Hb1), !bind_Ok, HA, HR, !bind_Ok. cbn beta iota.
  eexists _, _, _, _. split; [reflexivity|].
  split; [|split; [reflexivity|]].
  - unfold walked_at, deref. cbn [mem]. by rewrite list_lookup_insert_ne.
  - unfold walked_at, deref. cbn [mem]. by rewrite list_lookup_insert_ne.
Qed.

(** X15. With the revision of [NewRingBuffers] that stores its argument
    unclamped: when the argument is negative, [GetOrCreate] for a new
    category panics in [make]; when it is 0, [GetOrCreate] creates a buffer
    without storage, on which [Add] stores nothing.  With the clamping
    revision [GetOrCreate] returns for every argument. *)
Theorem X15_unclamped_default_breaks_getorcreate (cap : Z) m category (v : T) :
  (cap < 0 →
     GetOrCreate zero category {| mem := m; rbs := NewRingBuffers_cap cap |}
     = Panic makeslice_len_out_of_range) ∧
  (cap = 0 →
     ∃ rb w',
       GetOrCreate zero category {| mem := m; rbs := NewRingBuffers_cap cap |}
       = Ok (rb, w') ∧
       Add_at zero rb v w' = Ok (w', (zero, false)) ∧
       walked_at rb w' = Ok []) ∧
  (∃ rb w',
     GetOrCreate zero category {| mem := m; rbs := NewRingBuffers cap |}
     = Ok (rb, w')).
Proof.
  split; [|split].
  - intros Hcap. unfold GetOrCreate, NewRingBuffer. cbn [rbs bufs sz NewRingBuffers_cap].
    rewrite lookup_empty. by rewrite make_negative.
  - intros ->. eexists _, _.
    rewrite GetOrCreate_absent by (cbn; done || apply lookup_empty).
    split; [reflexivity|]. cbn [mem rbs sz bufs NewRingBuffers_cap Z.to_nat replicate].
    unfold Add_at, walked_at, deref. cbn [mem rbs].
    rewrite list_lookup_middle by done. rewrite !bind_Ok.
    split; [|done].
    rewrite Add_no_storage by done. rewrite bind_Ok. cbn beta iota.
    by rewrite list_insert_id by by apply list_lookup_middle.
  - eexists _, _.
    rewrite GetOrCreate_absent by (cbn; lia || apply lookup_empty).
    reflexivity.
Qed.

End RegistryLaws.

(** ** Instances of the properties on concrete states *)

Lemma C1_walk_yields_recent_values_witness :
  ∃ rb have,
    (NewRingBuffer 0 3 ≫= Add_all 0 [1; 2; 3; 4; 5]) = Ok rb ∧
    walked rb = Ok have ∧
    length have = Nat.min 5 (Z.to_nat 3) ∧
    have = reverse (drop (5 - Nat.min 5 (Z.to_nat 3)) [1; 2; 3; 4; 5]).
Proof. apply (C1_walk_yields_recent_values 0 3 [1; 2; 3; 4; 5]). lia. Defined.


Lemma rb_4321_wf : wf rb_4321.
Proof. unfold wf, rb_4321, slen. cbn. lia. Qed.

Lemma rb_21_wf : wf rb_21.
Proof. unfold wf, rb_21, slen. cbn. lia. Qed.

Lemma C2_resize_keeps_order_witness :
  ∃ rb' dropped,
    Resize 0 2 rb_4321 = Ok (rb', dropped) ∧
    (Z.of_nat 3 ≤ 2 → walked rb' = Ok [4; 3; 2] ∧ dropped = []) ∧
    (0 < 2 < Z.of_nat 3 →
       walked rb' = Ok (take (Z.to_nat 2) [4; 3; 2]) ∧
       dropped = drop (Z.to_nat 2) [4; 3; 2]) ∧
    len rb' = Z.min (Z.of_nat 3) 2 ∧
    cur rb' = Z.min (Z.of_nat 3) 2 `mod` 2.
Proof.
  apply (C2_resize_keeps_order 0 2 rb_4321 [4; 3; 2]).
  - apply rb_4321_wf.
  - vm_compute. reflexivity.
  - right. cbn. lia.
Defined.

Lemma C3_add_returns_evicted_witness :
  ∃ rb' dropped ok,
    Add 0 5 rb_4321 = Ok (rb', (dropped, ok)) ∧
    (len rb_4321 = slen (buf rb_4321) → last [4; 3; 2] = Some dropped ∧ ok = true) ∧
    (len rb_4321 < slen (buf rb_4321) → dropped = 0 ∧ ok = false).
Proof.
  apply (C3_add_returns_evicted 0 5 rb_4321 [4; 3; 2]).
  - apply rb_4321_wf.
  - vm_compute. reflexivity.
  - vm_compute. reflexivity.
Defined.

Lemma C6_overview_matches_walk_witness :
  ∃ newest oldest count have,
    Overview 0 rb_21 = Ok (newest, oldest, count) ∧
    walked rb_21 = Ok have ∧
    count = Z.of_nat (length have) ∧
    (have ≠ [] → head have = Some newest ∧ last have = Some oldest) ∧
    (len rb_21 = 0 → have = [] ∧ newest = 0 ∧ oldest = 0 ∧ count = 0).
Proof. apply (C6_overview_matches_walk 0 rb_21). apply rb_21_wf. Defined.

Lemma C9_cursor_zero_means_empty_or_full_witness :
  ∃ rb,
    (NewRingBuffer 0 3 ≫= do_calls 0 [CallAdd 1; CallAdd 2; CallAdd 3; CallResize 2])
    = Ok rb ∧
    (cur rb = 0 → 0 < slen (buf rb) → len rb = 0 ∨ len rb = slen (buf rb)) ∧
    (0 < len rb → Resize_rdcur rb = slot rb 0) ∧
    (∀ b : RingBuffer Z,
       0 < len b ≤ slen (buf b) → 0 ≤ cur b < slen (buf b) →
       Resize_rdcur b = slot b 0 ↔ (cur b = 0 → len b = slen (buf b))).
Proof.
  apply (C9_cursor_zero_means_empty_or_full 0 3
           [CallAdd 1; CallAdd 2; CallAdd 3; CallResize 2]).
  lia.
Defined.

Lemma C10_take_needs_nonnegative_witness :
  Take 0 (-1) rb_21 = Panic makeslice_len_out_of_range ∧
  ∃ s, Take 0 5 rb_21 = Ok (s, None) ∧ 0 ≤ slen s ≤ 5.
Proof.
  split.
  - apply (proj1 (C10_take_needs_nonnegative 0 (-1) rb_21)). lia.
  - apply (proj2 (C10_take_needs_nonnegative 0 5 rb_21)); [apply rb_21_wf | lia].
Defined.

Lemma C4_default_size_clamped_to_one_witness :
  sz (NewRingBuffers 0) = 1 ∧
  ∃ rb w' b,
    GetOrCreate 0 "bar" world_foo = Ok (rb, w') ∧
    mem w' !! rb = Some b ∧
    b = {| buf := [0]; cur := 0; len := 0 |} ∧
    slen (buf b) = 1.
Proof.
  apply (C4_default_size_clamped_to_one 0 0
           [OpGetOrCreate "foo"; OpAdd 0%nat 123] world_foo "bar").
  - lia.
  - reflexivity.
  - apply world_foo_reached.
  - vm_compute. reflexivity.
Defined.

Lemma C5_resize_nonpositive_is_noop_witness :
  Resize 0 (-1) rb_4321 = Ok (rb_4321, []) ∧
  RingBuffers_Resize 0 (-1) world_foo = Ok (world_foo, None) ∧
  (∀ rb : ptr, is_Some (mem world_foo !! rb) →
     Resize_at 0 rb (-1) world_foo = Ok (world_foo, [])).
Proof. apply (C5_resize_nonpositive_is_noop 0 (-1) rb_4321 world_foo). lia. Defined.

Lemma C7_one_buffer_per_category_witness :
  ∃ rb w1,
    GetOrCreate 0 "foo" world_foo = Ok (rb, w1) ∧
    GetOrCreate 0 "foo" w1 = Ok (rb, w1) ∧
    (∃ w2 r have,
        Add_at 0 rb 456 w1 = Ok (w2, r) ∧
        GetOrCreate 0 "foo" w2 = Ok (rb, w2) ∧
        walked_at rb w2 = Ok have ∧
        head have = Some 456) ∧
    (∀ (os' : list (op Z)) w',
        steps 0 os' w1 = Ok w' →
        GetOrCreate 0 "foo" w' = Ok (rb, w') ∧ is_Some (mem w' !! rb)).
Proof.
  apply (C7_one_buffer_per_category 0 0
           [OpGetOrCreate "foo"; OpAdd 0%nat 123] world_foo "foo" 456).
  apply world_foo_reached.
Defined.

(** Instances of the further properties. *)

Lemma X1_walk_stops_at_first_error_witness :
  Walk (top_fn 2) rb_4321 [] = visit (top_fn 2) [4; 3; 2] [] ∧
  ∀ pre v post s' s'' e,
    [4; 3; 2] = pre ++ v :: post →
    visit (top_fn 2) pre [] = Ok (s', None) →
    top_fn 2 v s' = Ok (s'', Some e) →
    Walk (top_fn 2) rb_4321 [] = Ok (s'', Some e).
Proof.
  apply (X1_walk_stops_at_first_error 0 (top_fn 2) rb_4321 [4; 3; 2] []).
  - apply rb_4321_wf.
  - vm_compute. reflexivity.
Defined.

Lemma X2_copy_fills_a_prefix_witness :
  Copy [9; 9; 9; 9; 9] rb_4321
  = Ok (take (Nat.min 5 3) [4; 3; 2] ++ drop (Nat.min 5 3) [9; 9; 9; 9; 9],
        (Z.of_nat (Nat.min 5 3), None)).
Proof.
  apply (X2_copy_fills_a_prefix 0 [9; 9; 9; 9; 9] rb_4321 [4; 3; 2]).
  - apply rb_4321_wf.
  - vm_compute. reflexivity.
Defined.

Lemma X3_take_returns_newest_witness :
  Take 0 2 rb_4321 = Ok (take (Z.to_nat 2) [4; 3; 2], None).
Proof.
  apply (X3_take_returns_newest 0 2 rb_4321 [4; 3; 2]).
  - apply rb_4321_wf.
  - vm_compute. reflexivity.
  - lia.
Defined.

Lemma X4_add_prepends_and_cuts_witness :
  ∃ rb' r,
    Add 0 5 rb_4321 = Ok (rb', r) ∧
    walked rb' = Ok (take (Z.to_nat (slen (buf rb_4321))) [5; 4; 3; 2]) ∧
    slen (buf rb') = slen (buf rb_4321) ∧
    len rb' = Z.min (len rb_4321 + 1) (slen (buf rb_4321)).
Proof.
  apply (X4_add_prepends_and_cuts 0 5 rb_4321 [4; 3; 2]).
  - apply rb_4321_wf.
  - vm_compute. reflexivity.
  - vm_compute. reflexivity.
Defined.

Lemma X5_overview_after_add_witness :
  ∃ rb' r oldest,
    Add 0 3 rb_21 = Ok (rb', r) ∧
    Overview 0 rb' = Ok (3, oldest, Z.min (len rb_21 + 1) (slen (buf rb_21))).
Proof.
  apply (X5_overview_after_add 0 3 rb_21).
  - apply rb_21_wf.
  - vm_compute. reflexivity.
Defined.

Lemma X6_resize_twice_witness :
  ∃ rb1 dropped1 rb2 dropped2,
    Resize 0 2 rb_4321 = Ok (rb1, dropped1) ∧
    Resize 0 1 rb1 = Ok (rb2, dropped2) ∧
    walked rb2 = Ok (take (Z.to_nat (Z.min 2 1)) [4; 3; 2]) ∧
    dropped2 ++ dropped1 = drop (Z.to_nat (Z.min 2 1)) [4; 3; 2] ∧
    slen (buf rb2) = 1.
Proof.
  apply (X6_resize_twice 0 2 1 rb_4321 [4; 3; 2]).
  - apply rb_4321_wf.
  - vm_compute. reflexivity.
  - lia.
  - lia.
Defined.

Lemma X7_buffer_refines_list_model_witness :
  ∃ rb,
    (NewRingBuffer 0 3
       ≫= do_calls 0 [CallAdd 1; CallAdd 2; CallAdd 3; CallResize 2;
                      CallResize 4; CallAdd 4; CallResize 0]) = Ok rb ∧
    slen (buf rb) = 4 ∧
    walked rb = Ok [4; 3; 2] ∧
    len rb = 3 ∧
    0 ≤ len rb ≤ slen (buf rb).
Proof.
  apply (X7_buffer_refines_list_model 0 3
           [CallAdd 1; CallAdd 2; CallAdd 3; CallResize 2;
            CallResize 4; CallAdd 4; CallResize 0]).
  lia.
Defined.

Lemma X8_reachable_states_never_panic_witness :
  (∀ o : op Z, op_safe world_foo_bar o → ∃ w', step 0 o world_foo_bar = Ok w') ∧
  (∀ (rb : ptr) b, mem world_foo_bar !! rb = Some b →
     (∀ dst : list Z, ∃ r, Copy dst b = Ok r) ∧
     (∀ (S : Type) (fn : visitor S) (s0 : S),
        (∀ v s1, ∃ r, fn v s1 = Ok r) → ∃ r, Walk fn b s0 = Ok r)).
Proof.
  apply (X8_reachable_states_never_panic 0 3 history_foo_bar world_foo_bar).
  apply world_foo_bar_reached.
Defined.

Lemma X10_resize_all_resizes_each_witness :
  ∃ w' dropped,
    RingBuffers_Resize 0 2 world_foo_bar = Ok (w', Some dropped) ∧
    sz (rbs w') = 2 ∧
    bufs (rbs w') = bufs (rbs world_foo_bar) ∧
    (∀ category rb, bufs (rbs world_foo_bar) !! category = Some rb →
       ∃ vals b',
         walked_at rb world_foo_bar = Ok vals ∧
         walked_at rb w' = Ok (take (Z.to_nat 2) vals) ∧
         dropped !! category = Some (drop (Z.to_nat 2) vals) ∧
         mem w' !! rb = Some b' ∧ slen (buf b') = 2) ∧
    (∀ category, bufs (rbs world_foo_bar) !! category = None →
       dropped !! category = None) ∧
    (∀ rb, (∀ category, bufs (rbs world_foo_bar) !! category ≠ Some rb) →
       mem w' !! rb = mem world_foo_bar !! rb).
Proof.
  apply (X10_resize_all_resizes_each 0 3 2 history_foo_bar world_foo_bar).
  - apply world_foo_bar_reached.
  - lia.
Defined.

Lemma X11_resize_all_any_map_order_witness :
  Resize_each 0 2 (reverse (map_to_list (bufs (rbs world_foo_bar))))
    (mem world_foo_bar) ∅
  = Resize_each 0 2 (map_to_list (bufs (rbs world_foo_bar)))
      (mem world_foo_bar) ∅.
Proof.
  apply (X11_resize_all_any_map_order 0 3 2 history_foo_bar world_foo_bar).
  - apply world_foo_bar_reached.
  - lia.
  - apply reverse_Permutation.
Defined.

Lemma X12_new_buffers_follow_resized_default_witness :
  ∃ w1 dropped rb w2,
    RingBuffers_Resize 0 2 world_foo_bar = Ok (w1, dropped) ∧
    GetOrCreate 0 "baz" w1 = Ok (rb, w2) ∧
    mem w2 !! rb
    = Some {| buf := replicate (Z.to_nat 2) 0; cur := 0; len := 0 |}.
Proof.
  apply (X12_new_buffers_follow_resized_default 0 3 2 history_foo_bar
           world_foo_bar "baz").
  - apply world_foo_bar_reached.
  - lia.
  - vm_compute. reflexivity.
Defined.

Lemma X13_getorcreate_adds_one_empty_buffer_witness :
  ∃ rb w',
    GetOrCreate 0 "baz" world_foo_bar = Ok (rb, w') ∧
    mem world_foo_bar !! rb = None ∧
    walked_at rb w' = Ok [] ∧
    (∀ rb0, is_Some (mem world_foo_bar !! rb0) →
       mem w' !! rb0 = mem world_foo_bar !! rb0) ∧
    GetAll w' = <["baz" := rb]> (GetAll world_foo_bar) ∧
    sz (rbs w') = sz (rbs world_foo_bar).
Proof.
  apply (X13_getorcreate_adds_one_empty_buffer 0 3 history_foo_bar
           world_foo_bar "baz").
  - apply world_foo_bar_reached.
  - vm_compute. reflexivity.
Defined.

Lemma X14_categories_are_independent_witness :
  0%nat ≠ 1%nat ∧
  ∃ w1 r w2 dropped,
    Add_at 0 0%nat 456 world_foo_bar = Ok (w1, r) ∧
    walked_at 1%nat w1 = walked_at 1%nat world_foo_bar ∧
    Resize_at 0 0%nat 1 world_foo_bar = Ok (w2, dropped) ∧
    walked_at 1%nat w2 = walked_at 1%nat world_foo_bar.
Proof.
  apply (X14_categories_are_independent 0 3 history_foo_bar world_foo_bar
           "foo" "bar" 0%nat 1%nat 456 1).
  - apply world_foo_bar_reached.
  - vm_compute. reflexivity.
  - vm_compute. reflexivity.
  - discriminate.
Defined.

Lemma X15_unclamped_default_breaks_getorcreate_witness :
  GetOrCreate 0 "foo" {| mem := []; rbs := NewRingBuffers_cap (-1) |}
  = Panic makeslice_len_out_of_range ∧
  ∃ rb w',
    GetOrCreate 0 "foo" {| mem := []; rbs := NewRingBuffers_cap 0 |}
    = Ok (rb, w') ∧
    Add_at 0 rb 7 w' = Ok (w', (0, false)) ∧
    walked_at rb w' = Ok [].
Proof.
  split.
  - apply (proj1 (X15_unclamped_default_breaks_getorcreate 0 (-1) [] "foo" 7)).
    lia.
  - apply (proj1 (proj2 (X15_unclamped_default_breaks_getorcreate 0 0 [] "foo" 7))).
    reflexivity.
Defined.

Lemma X16_add_evicts_in_insertion_order_witness :
  ∃ rb,
    (NewRingBuffer 0 3 ≫= Add_evicting 0 [1; 2; 3; 4; 5])
    = Ok (rb, take (5 - Z.to_nat 3) [1; 2; 3; 4; 5]).
Proof. apply (X16_add_evicts_in_insertion_order 0 3 [1; 2; 3; 4; 5]). lia. Defined.

Lemma X9_getall_agrees_with_getorcreate_witness :
  GetOrCreate 0 "bar" world_foo_bar = Ok (1%nat, world_foo_bar) ∧
  GetAll world_foo_bar !! "bar" = Some 1%nat.
Proof.
  split.
  - apply (proj1 (X9_getall_agrees_with_getorcreate 0 world_foo_bar "bar" 1%nat)).
    vm_compute. reflexivity.
  - apply (proj2 (X9_getall_agrees_with_getorcreate 0 world_foo_bar "bar" 1%nat)).
    vm_compute. reflexivity.
Defined.

(** C4, as stated, fails: it promises capacity 1 for every buffer created
    after [NewRingBuffers(sz)], [sz < 1], whatever was called in between.
    After [NewRingBuffers(0)] and [Resize(5)] of the set, [GetOrCreate]
    creates a buffer of capacity 5. *)
Lemma C4_default_size_clamped_to_one_counterexample :
  ¬ (∀ (s : Z) (os : list (op Z)) (w : world Z) (category : string),
       s < 1 →
       steps 0 os (NewWorld s) = Ok w →
       bufs (rbs w) !! category = None →
       ∃ rb w' b,
         GetOrCreate 0 category w = Ok (rb, w') ∧
         mem w' !! rb = Some b ∧
         slen (buf b) = 1).
Proof.
  intros Hclaim.
  destruct (Hclaim 0 [OpResizeAll 5]
              {| mem := []; rbs := {| sz := 5; bufs := ∅ |} |} "foo")
    as (rb & w' & b & HG & Hb & Hcap).
  - lia.
  - vm_compute. reflexivity.
  - reflexivity.
  - rewrite GetOrCreate_absent in HG by (cbn; done || lia).
    injection HG as <- <-. cbn in Hb. injection Hb as <-.
    vm_compute in Hcap. discriminate Hcap.
Qed.
